(** * Transcript worker: fetch, classify, retry, persist

    A shallow embedding of [backend/workers/fetch_transcripts.py]: the two
    selection queries, the coalescing upsert, the retry/backoff loop around
    the transcript provider and the orchestrating [main], followed by the
    properties of the worker that the specification records.

    Conventions of the model.
    - A Python [str] is a list of Unicode code points ([list N]); [py]
      turns an ASCII literal of this file into one.
    - A Python [float] that is a delay in seconds is a [pyfloat]: an exact
      rational, an infinity or NaN.  The only arithmetic on it is the
      product with a power of two, which is exact in binary64 unless it
      overflows, and an overflowing delay is refused by [time.sleep] just
      as the exact product is.
    - A SQL column is an [option]: [None] is SQL NULL.  The table
      [elongoat.youtube_transcripts] is a finite map from its unique key
      [video_id] to the remaining columns.
    - Python exceptions are values of [pyexn]; a function that can raise
      returns [pyexn + A].  The provider is an oracle, and every provider
      call and every sleep is recorded in a log.
    - [time.sleep] waits until the monotonic clock reaches its reading
      plus the delay, and the system refuses a deadline beyond the
      clock's range.  The reading is not part of the model: the clock is
      taken to stand below [2^62] ns (146 years), and a delay above that
      is taken to be refused.
    - Log lines written through [logger] are not part of the model.
    - A write or a query can also fail for reasons that lie with the
      server, the driver or the schema (connectivity, constraints and
      column types of the table definition, which is not among the
      sources).  Of the driver the model has the refusal of a string
      parameter with a NUL character, of the server the range of the
      [LIMIT] count; whatever is said below about a write or a query that
      goes through is said of one that goes through. *)

From Stdlib Require Import ZArith QArith Lqa String Ascii.
From stdpp Require Import base option list gmap sorting pretty.

Local Open Scope Z_scope.

(** ** Python strings and values *)

Abbreviation pystr := (list N).

Definition py (s : string) : pystr :=
  map N_of_ascii (list_ascii_of_string s).

(** [str.isspace] on one code point: the characters CPython's
    [_PyUnicode_IsWhitespace] accepts. *)
Definition isspace (c : N) : bool :=
  ((9 <=? c) && (c <=? 13) || (28 <=? c) && (c <=? 32)
   || (c =? 133) || (c =? 160) || (c =? 5760)
   || (8192 <=? c) && (c <=? 8202)
   || (c =? 8232) || (c =? 8233) || (c =? 8239) || (c =? 8287)
   || (c =? 12288))%N.

Fixpoint lstrip (s : pystr) : pystr :=
  match s with
  | c :: s' => if isspace c then lstrip s' else s
  | [] => []
  end.

(** [s.strip()] *)
Definition strip (s : pystr) : pystr :=
  reverse (lstrip (reverse (lstrip s))).

(** The values a transcript segment holds under its keys. *)
Inductive pyval :=
  | PyStr (s : pystr)
  | PyFloat (q : Q)
  | PyNone.

(** One transcript segment, a [Dict[str, Any]]. *)
Abbreviation segment := (gmap pystr pyval).

(** [d.get(k, default)] *)
Definition dict_get (d : segment) (k : pystr) (default : pyval) : pyval :=
  match d !! k with Some v => v | None => default end.

(** The exception classes the worker tells apart, those that the library
    calls of the model raise, and [OtherException] for every other
    subclass of [Exception].  None of them is a subclass of another. *)
Inductive exn_class :=
  | TranscriptsDisabled
  | NoTranscriptFound
  | NoTranscriptAvailable
  | NotTranslatable
  | TranslationLanguageNotAvailable
  | VideoUnavailable
  | TooManyRequests
  | ValueError
  | TypeError
  | OverflowError
  | OSError
  | DatabaseError
  | OtherException.

(** A raised exception: its class and [str(e)]. *)
Record pyexn := Raise { exn_class_of : exn_class; exn_str : pystr }.

Definition type_name (v : pyval) : string :=
  match v with
  | PyStr _ => "str"
  | PyFloat _ => "float"
  | PyNone => "NoneType"
  end.

(** The items of a [join] must all be [str]; the first one that is not
    raises [TypeError], [i] being its position. *)
Fixpoint expect_strs (i : nat) (items : list pyval) : pyexn + list pystr :=
  match items with
  | [] => inr []
  | PyStr s :: rest =>
      match expect_strs (S i) rest with
      | inr ss => inr (s :: ss)
      | inl e => inl e
      end
  | v :: _ =>
      inl (Raise TypeError
             (py ("sequence item " ++ pretty i ++ ": expected str instance, "
                  ++ type_name v ++ " found")))
  end.

Fixpoint concat_with (sep : pystr) (ss : list pystr) : pystr :=
  match ss with
  | [] => []
  | [s] => s
  | s :: rest => s ++ sep ++ concat_with sep rest
  end.

(** [sep.join(items)] *)
Definition str_join (sep : pystr) (items : list pyval) : pyexn + pystr :=
  match expect_strs 0 items with
  | inr ss => inr (concat_with sep ss)
  | inl e => inl e
  end.

(** ** FetchStatus and FetchResult *)

Inductive FetchStatus :=
  | SUCCESS
  | DISABLED
  | NOT_FOUND
  | UNAVAILABLE
  | RATE_LIMITED
  | ERROR.

(** [status.value] *)
Definition value (s : FetchStatus) : pystr :=
  match s with
  | SUCCESS => py "success"
  | DISABLED => py "disabled"
  | NOT_FOUND => py "not_found"
  | UNAVAILABLE => py "unavailable"
  | RATE_LIMITED => py "rate_limited"
  | ERROR => py "error"
  end.

Module FetchResult.
Record t := mk {
  video_id : pystr;
  status : FetchStatus;
  language : option pystr;
  transcript : option (list segment);
  error_message : option pystr;
}.
End FetchResult.
Abbreviation FetchResult := FetchResult.t.

(** ** The store *)

(** The columns of [elongoat.youtube_transcripts] other than the key
    [video_id], named as the queries name them through the alias [t]. *)
Record transcript_row := mkRow {
  t_language : option pystr;
  t_transcript_text : option pystr;
  t_transcript_json : option (list segment);
  t_fetch_status : option pystr;
  t_error_message : option pystr;
  t_fetch_attempts : option Z;
  t_fetched_at : option Z;
}.

(** Modelled from the spec: the schema of the two relations is not among
    the sources.  Following the data model of the specification, both are
    keyed by a unique video identifier, the catalog carries a discovery
    timestamp [scraped_at], every other column is nullable, the counter
    column is an unbounded integer, and a row inserted without a value for
    [fetched_at] receives the time of the write. *)
Record db := mkDb {
  youtube_videos : gmap pystr (option Z);
  youtube_transcripts : gmap pystr transcript_row;
}.

(** Modelled from the spec: the column default of [fetched_at], part of
    the missing table definition; the specification calls the column the
    timestamp of the last persistence write. *)
Definition fetched_at_default (now : Z) : option Z := Some now.

(** SQL [COALESCE(a, b)] *)
Definition COALESCE {A} (a b : option A) : option A :=
  match a with
  | Some _ => a
  | None => b
  end.

(** SQL [a + n], NULL when [a] is. *)
Definition sql_plus (a : option Z) (n : Z) : option Z :=
  match a with
  | Some x => Some (x + n)
  | None => None
  end.

(** [INSERT ... VALUES excluded ON CONFLICT (video_id) DO UPDATE SET ...]
    of [upsert_transcript], run at transaction time [now]. *)
Definition insert_on_conflict_update (now : Z) (key : pystr)
    (EXCLUDED : transcript_row) (t : gmap pystr transcript_row)
    : gmap pystr transcript_row :=
  match t !! key with
  | None => <[key := EXCLUDED]> t
  | Some old =>
      <[key := {| t_language := t_language EXCLUDED;
                  t_transcript_text :=
                    COALESCE (t_transcript_text EXCLUDED) (t_transcript_text old);
                  t_transcript_json :=
                    COALESCE (t_transcript_json EXCLUDED) (t_transcript_json old);
                  t_fetch_status := t_fetch_status EXCLUDED;
                  t_error_message := t_error_message EXCLUDED;
                  t_fetch_attempts := sql_plus (t_fetch_attempts old) 1;
                  t_fetched_at := Some now |}]> t
  end.

(** Python truth value of an [Optional[List]]. *)
Definition truthy {A} (l : option (list A)) : bool :=
  match l with
  | Some (_ :: _) => true
  | _ => false
  end.

(** The [transcript_text] parameter that [upsert_transcript] computes. *)
Definition flatten_text (transcript : option (list segment))
    : pyexn + option pystr :=
  if truthy transcript then
    match str_join (py " ")
            (map (λ seg, dict_get seg (py "text") (PyStr []))
                 (default [] transcript)) with
    | inr s => inr (Some (strip s))
    | inl e => inl e
    end
  else inr None.

Definition default_attempt_count : Z := 1.

(** What the driver does with the string parameters of a statement, in
    order, before anything is sent: a string with a NUL character is
    refused with a [ValueError].  ([Json(transcript)] is sent as JSON text
    with every such character escaped, and is not refused here.) *)
Fixpoint adapt_strings (params : list (option pystr)) : pyexn + unit :=
  match params with
  | [] => inr ()
  | Some s :: rest =>
      if bool_decide (0%N ∈ s) then
        inl (Raise ValueError
               (py "A string literal cannot contain NUL (0x00) characters."))
      else adapt_strings rest
  | None :: rest => adapt_strings rest
  end.

Definition upsert_transcript (conn : db) (now : Z) (video_id : pystr)
    (language : option pystr) (transcript : option (list segment))
    (status : FetchStatus) (error_message : option pystr)
    (attempt_count : Z) : pyexn + db :=
  match flatten_text transcript with
  | inl e => inl e
  | inr transcript_text =>
      match
        adapt_strings
          [Some video_id; language; transcript_text; Some (value status);
           error_message]
      with
      | inl e => inl e
      | inr _ =>
          let EXCLUDED :=
            {| t_language := language;
               t_transcript_text := transcript_text;
               t_transcript_json :=
                 if truthy transcript then transcript else None;
               t_fetch_status := Some (value status);
               t_error_message := error_message;
               t_fetch_attempts := Some attempt_count;
               t_fetched_at := fetched_at_default now |} in
          inr {| youtube_videos := youtube_videos conn;
                 youtube_transcripts :=
                   insert_on_conflict_update now video_id EXCLUDED
                     (youtube_transcripts conn) |}
      end
  end.

(** ** SQL conditions

    A condition evaluates to TRUE, FALSE or NULL; [WHERE] keeps the rows
    on which it is TRUE. *)

Abbreviation sql_bool := (option bool).

Definition IS_NULL {A} (a : option A) : sql_bool :=
  match a with
  | Some _ => Some false
  | None => Some true
  end.

Definition NOT_IN (a : option pystr) (vals : list pystr) : sql_bool :=
  match a with
  | Some x => Some (negb (bool_decide (x ∈ vals)))
  | None => None
  end.

Definition sql_lt (a b : option Z) : sql_bool :=
  match a, b with
  | Some x, Some y => Some (x <? y)
  | _, _ => None
  end.

Definition AND (a b : sql_bool) : sql_bool :=
  match a, b with
  | Some false, _ | _, Some false => Some false
  | Some true, Some true => Some true
  | _, _ => None
  end.

Definition WHERE {A} (cond : A → sql_bool) (rows : list A) : list A :=
  filter (λ r, cond r = Some true) rows.

(** [ORDER BY c ASC] puts NULL last, [ORDER BY c DESC] puts it first.  The
    order of rows that compare equal is whatever the stable sort of the
    scan order gives. *)
Definition asc_nulls_last (a b : option Z) : Prop :=
  match a, b with
  | Some x, Some y => x ≤ y
  | None, Some _ => False
  | _, None => True
  end.

#[global] Instance asc_nulls_last_dec a b : Decision (asc_nulls_last a b).
Proof. destruct a, b; simpl; apply _. Defined.

Definition ORDER_BY_ASC {A} (col : A → option Z) (rows : list A) : list A :=
  merge_sort (λ r1 r2, asc_nulls_last (col r1) (col r2)) rows.

Definition ORDER_BY_DESC {A} (col : A → option Z) (rows : list A) : list A :=
  merge_sort (λ r1 r2, asc_nulls_last (col r2) (col r1)) rows.

(** [LIMIT n]: the count is a [bigint]; the server rejects a negative one
    and one that does not fit. *)
Definition LIMIT {A} (n : Z) (rows : list A) : pyexn + list A :=
  if n <? 0 then inl (Raise DatabaseError (py "LIMIT must not be negative"))
  else if 2 ^ 63 <=? n then inl (Raise DatabaseError (py "bigint out of range"))
  else inr (take (Z.to_nat n) rows).

(** ** Selection queries *)

(** [youtube_videos v LEFT JOIN youtube_transcripts t ON t.video_id =
    v.video_id]: each catalog row with its transcript row, if any.  The
    key of a stored row is not NULL, so [t.video_id IS NULL] holds of a
    joined row exactly when there is no transcript row. *)
Definition videos_left_join_transcripts (conn : db)
    : list (pystr * option Z * option transcript_row) :=
  map (λ v, (v.1, v.2, youtube_transcripts conn !! v.1))
      (map_to_list (youtube_videos conn)).

Definition fetch_pending_video_ids (conn : db) (limit : Z)
    : pyexn + list pystr :=
  match
    LIMIT limit
      (ORDER_BY_DESC (λ r, r.1.2)
         (WHERE (λ r, IS_NULL r.2) (videos_left_join_transcripts conn)))
  with
  | inr rows => inr (map (λ r, r.1.1) rows)
  | inl e => inl e
  end.

(** The [WHERE] clause of the retry-eligible query. *)
Definition failed_condition (max_attempts : Z) (t : transcript_row)
    : sql_bool :=
  AND (AND (IS_NULL (t_transcript_text t))
           (NOT_IN (t_fetch_status t) [py "disabled"; py "unavailable"]))
      (sql_lt (COALESCE (t_fetch_attempts t) (Some 1)) (Some max_attempts)).

Definition default_max_attempts : Z := 3.

Definition fetch_failed_video_ids (conn : db) (limit : Z) (max_attempts : Z)
    : pyexn + list (pystr * Z) :=
  match
    LIMIT limit
      (ORDER_BY_ASC (λ r, t_fetched_at r.2)
         (WHERE (λ r, failed_condition max_attempts r.2)
            (map_to_list (youtube_transcripts conn))))
  with
  | inr rows =>
      inr (map (λ r, (r.1, default 1 (COALESCE (t_fetch_attempts r.2) (Some 1))))
               rows)
  | inl e => inl e
  end.

(** ** The provider, the clock and the effect log *)

(** What one call of [api.fetch] does: it returns a fetched transcript,
    of which the worker reads [language_code] and [to_raw_data()], or it
    raises. *)
Inductive response :=
  | Fetched (language_code : pystr) (raw_data : list segment)
  | Raises (e : pyexn).

Inductive event :=
  | EvFetch (video_id : pystr) (languages : list pystr) (r : response)
  | EvSleep (seconds : Q).

(** The provider answers its [k]-th call ([k] counted from 0 over the
    life of the handle) with [api k]. *)
Abbreviation YouTubeTranscriptApi := (nat → response).

Record world := mkWorld {
  calls : nat;
  log : list event;
}.

Definition M (A : Type) : Type := world → (pyexn + A) * world.

Definition ret {A} (a : A) : M A := λ w, (inr a, w).

Definition bind {A B} (m : M A) (k : A → M B) : M B :=
  λ w, match m w with
       | (inr a, w') => k a w'
       | (inl e, w') => (inl e, w')
       end.

(** [try: body except Exception as e: handler e] *)
Definition try_except {A} (body : M A) (handler : pyexn → M A) : M A :=
  λ w, match body w with
       | (inr a, w') => (inr a, w')
       | (inl e, w') => handler e w'
       end.

#[global] Instance M_ret : MRet M := @ret.
#[global] Instance M_bind : MBind M := λ A B k m, bind m k.

(** [api.fetch(video_id, languages=tuple(languages))] *)
Definition api_fetch (api : YouTubeTranscriptApi) (video_id : pystr)
    (languages : list pystr) : M (pystr * list segment) :=
  λ w,
    let r := api (calls w) in
    let w' := {| calls := S (calls w);
                 log := log w ++ [EvFetch video_id languages r] |} in
    match r with
    | Fetched language_code raw_data => (inr (language_code, raw_data), w')
    | Raises e => (inl e, w')
    end.

(** A Python [float]. *)
Inductive pyfloat :=
  | Finite (q : Q)
  | Infinity (negative : bool)
  | NaN.

(** [time.sleep] converts its argument to a signed 64-bit count of
    nanoseconds, and the deadline, the clock's reading plus that count,
    must fit the same range. *)
Definition PYTIME_MIN : Z := - 2 ^ 63.
Definition PYTIME_MAX : Z := 2 ^ 63 - 1.
Definition SLEEP_MAX_NS : Z := 2 ^ 62.

Definition nanoseconds (q : Q) : Q := (q * inject_Z (10 ^ 9))%Q.

(** What [time.sleep(seconds)] does with its argument: it sleeps that
    long, or raises.  The conversion comes first, with [ValueError] for
    NaN and [OverflowError] for a count that does not fit; a negative
    length that fits raises [ValueError], and a deadline that does not
    fit raises [OSError].  The rounding of the count to binary64 at the
    ends of the range is not modelled. *)
Definition sleep_outcome (seconds : pyfloat) : pyexn + Q :=
  match seconds with
  | NaN => inl (Raise ValueError (py "Invalid value NaN (not a number)"))
  | Infinity _ =>
      inl (Raise OverflowError
             (py "timestamp too large to convert to C _PyTime_t"))
  | Finite q =>
      if Qle_bool (inject_Z PYTIME_MIN) (nanoseconds q)
         && Qle_bool (nanoseconds q) (inject_Z PYTIME_MAX)
      then
        if Qle_bool 0 q then
          if Qle_bool (nanoseconds q) (inject_Z SLEEP_MAX_NS) then inr q
          else inl (Raise OSError (py "[Errno 22] Invalid argument"))
        else inl (Raise ValueError (py "sleep length must be non-negative"))
      else
        inl (Raise OverflowError
               (py "timestamp too large to convert to C _PyTime_t"))
  end.

(** [time.sleep(seconds)] *)
Definition time_sleep (seconds : pyfloat) : M unit :=
  λ w,
    match sleep_outcome seconds with
    | inr q => (inr (), {| calls := calls w; log := log w ++ [EvSleep q] |})
    | inl e => (inl e, w)
    end.

(** ** The retry/backoff loop *)

(** [a or b] on an optional string. *)
Definition py_or (a : option pystr) (b : pystr) : pystr :=
  match a with
  | Some (c :: s) => c :: s
  | _ => b
  end.

(** The exact value of [q * 2 ** attempt], for an [attempt] of
    [range(max_retries)], which is never negative. *)
Definition backoff_seconds (q : Q) (attempt : Z) : Q :=
  (q * inject_Z (2 ^ attempt))%Q.

(** [retry_delay * (2 ** attempt)]: the integer power is converted to a
    float first, which raises [OverflowError] from [2 ** 1024] on. *)
Definition backoff (retry_delay : pyfloat) (attempt : Z) : pyexn + pyfloat :=
  if 1024 <=? attempt then
    inl (Raise OverflowError (py "int too large to convert to float"))
  else
    inr match retry_delay with
        | Finite q => Finite (backoff_seconds q attempt)
        | Infinity negative => Infinity negative
        | NaN => NaN
        end.

(** A value computed without effects, or the exception it raised. *)
Definition lift {A} (r : pyexn + A) : M A := λ w, (r, w).

Section fetch_transcript_with_retry.
Variable api : YouTubeTranscriptApi.
Variable video_id : pystr.
Variable languages : list pystr.
Variable max_retries : Z.
Variable retry_delay : pyfloat.
Variable sleep_seconds : pyfloat.

(** The body of the [try]. *)
Definition try_fetch : M FetchResult :=
  fetched ← api_fetch api video_id languages;
  let transcript := fetched.2 in
  time_sleep sleep_seconds;;
  mret {| FetchResult.video_id := video_id;
         FetchResult.status := SUCCESS;
         FetchResult.language := Some fetched.1;
         FetchResult.transcript := Some transcript;
         FetchResult.error_message := None |}.

(** The [except] clauses of the loop body, in the order of the source;
    [continue] runs the remaining iterations with the given
    [last_error]. *)
Definition on_exception (attempt : Z)
    (continue : option pystr → M FetchResult) (e : pyexn) : M FetchResult :=
  match exn_class_of e with
  | TranscriptsDisabled =>
      mret {| FetchResult.video_id := video_id;
              FetchResult.status := DISABLED;
              FetchResult.language := None;
              FetchResult.transcript := None;
              FetchResult.error_message := Some (exn_str e) |}
  | NoTranscriptFound | NoTranscriptAvailable | NotTranslatable
  | TranslationLanguageNotAvailable =>
      mret {| FetchResult.video_id := video_id;
              FetchResult.status := NOT_FOUND;
              FetchResult.language := None;
              FetchResult.transcript := None;
              FetchResult.error_message := Some (exn_str e) |}
  | VideoUnavailable =>
      mret {| FetchResult.video_id := video_id;
              FetchResult.status := UNAVAILABLE;
              FetchResult.language := None;
              FetchResult.transcript := None;
              FetchResult.error_message := Some (exn_str e) |}
  | TooManyRequests =>
      let last_error := Some (exn_str e) in
      if attempt <? max_retries - 1 then
        delay ← lift (backoff retry_delay attempt);
        time_sleep delay;;
        continue last_error
      else
        mret {| FetchResult.video_id := video_id;
                FetchResult.status := RATE_LIMITED;
                FetchResult.language := None;
                FetchResult.transcript := None;
                FetchResult.error_message := last_error |}
  | _ =>
      let last_error := Some (exn_str e) in
      if attempt <? max_retries - 1 then
        delay ← lift (backoff retry_delay attempt);
        time_sleep delay;;
        continue last_error
      else
        mret {| FetchResult.video_id := video_id;
                FetchResult.status := ERROR;
                FetchResult.language := None;
                FetchResult.transcript := None;
                FetchResult.error_message := last_error |}
  end.

(** The iterations of [for attempt in range(max_retries)] that are still
    to run, then the statement after the loop. *)
Fixpoint retry_loop (attempts : list Z) (last_error : option pystr)
    : M FetchResult :=
  match attempts with
  | [] =>
      mret {| FetchResult.video_id := video_id;
              FetchResult.status := ERROR;
              FetchResult.language := None;
              FetchResult.transcript := None;
              FetchResult.error_message :=
                Some (py_or last_error (py "Unknown error after retries")) |}
  | attempt :: rest =>
      try_except try_fetch (on_exception attempt (retry_loop rest))
  end.

Definition fetch_transcript_with_retry : M FetchResult :=
  retry_loop (seqZ 0 max_retries) None.
End fetch_transcript_with_retry.

(** ** The orchestrator *)

(** The settings [main] reads from the environment, already parsed. *)
Record environ := mkEnviron {
  TRANSCRIPT_BATCH_LIMIT : Z;
  TRANSCRIPT_SLEEP_SECONDS : pyfloat;
  TRANSCRIPT_MAX_RETRIES : Z;
  TRANSCRIPT_RETRY_DELAY : pyfloat;
  TRANSCRIPT_LANGUAGES : list pystr;
}.

(** What a run has done so far: the committed store, the counters and the
    provider calls and sleeps. *)
Record run := mkRun {
  conn : db;
  stats : gmap pystr Z;
  effects : world;
}.

Definition stats_init : gmap pystr Z :=
  list_to_map
    [(py "success", 0); (py "disabled", 0); (py "not_found", 0);
     (py "unavailable", 0); (py "rate_limited", 0); (py "error", 0)].

(** The [for i, video_id in enumerate(video_ids, 1)] loop of [main];
    [clock i] is the transaction time of the write for item [i].  An
    exception ends the run with the store as last committed. *)
Fixpoint process (env : environ) (api : YouTubeTranscriptApi)
    (clock : nat → Z) (i : nat) (video_ids : list pystr) (st : run)
    : (pyexn + unit) * run :=
  match video_ids with
  | [] => (inr (), st)
  | video_id :: rest =>
      match
        fetch_transcript_with_retry api video_id (TRANSCRIPT_LANGUAGES env)
          (TRANSCRIPT_MAX_RETRIES env) (TRANSCRIPT_RETRY_DELAY env)
          (TRANSCRIPT_SLEEP_SECONDS env) (effects st)
      with
      | (inl e, w) => (inl e, {| conn := conn st; stats := stats st; effects := w |})
      | (inr result, w) =>
          let key := value (FetchResult.status result) in
          let stats' := <[key := default 0 (stats st !! key) + 1]> (stats st) in
          match
            upsert_transcript (conn st) (clock i)
              (FetchResult.video_id result) (FetchResult.language result)
              (FetchResult.transcript result) (FetchResult.status result)
              (FetchResult.error_message result) default_attempt_count
          with
          | inl e => (inl e, {| conn := conn st; stats := stats'; effects := w |})
          | inr conn' =>
              process env api clock (S i) rest
                {| conn := conn'; stats := stats'; effects := w |}
          end
      end
  end.

Definition main (env : environ) (api : YouTubeTranscriptApi)
    (clock : nat → Z) (db0 : db) : (pyexn + unit) * run :=
  let st := {| conn := db0; stats := stats_init;
               effects := {| calls := 0; log := [] |} |} in
  match fetch_pending_video_ids db0 (TRANSCRIPT_BATCH_LIMIT env) with
  | inl e => (inl e, st)
  | inr video_ids =>
      match video_ids with
      | [] => (inr (), st)
      | _ => process env api clock 1 video_ids st
      end
  end.

Definition default_environ : environ :=
  {| TRANSCRIPT_BATCH_LIMIT := 25;
     TRANSCRIPT_SLEEP_SECONDS := Finite 1;
     TRANSCRIPT_MAX_RETRIES := 3;
     TRANSCRIPT_RETRY_DELAY := Finite 2;
     TRANSCRIPT_LANGUAGES := [py "en"] |}.

(** ** Sequences of writes to one identifier *)

(** The arguments of one call of [upsert_transcript] besides the
    connection and the identifier. *)
Record write := mkWrite {
  w_now : Z;
  w_language : option pystr;
  w_transcript : option (list segment);
  w_status : FetchStatus;
  w_error_message : option pystr;
  w_attempt_count : Z;
}.

Definition apply_write (video_id : pystr) (c : db) (w : write) : pyexn + db :=
  upsert_transcript c (w_now w) video_id (w_language w) (w_transcript w)
    (w_status w) (w_error_message w) (w_attempt_count w).

Fixpoint apply_writes (video_id : pystr) (c : db) (ws : list write)
    : pyexn + db :=
  match ws with
  | [] => inr c
  | w :: rest =>
      match apply_write video_id c w with
      | inr c' => apply_writes video_id c' rest
      | inl e => inl e
      end
  end.

(** The stored counter of [video_id] once the first [k] writes of [ws]
    have run. *)
Definition attempts_after (video_id : pystr) (c : db) (ws : list write)
    (k : nat) : option Z :=
  match apply_writes video_id c (take k ws) with
  | inr c' => youtube_transcripts c' !! video_id ≫= t_fetch_attempts
  | inl _ => None
  end.

(** Both content columns are NULL or neither is. *)
Definition paired (r : transcript_row) : Prop :=
  t_transcript_text r = None ↔ t_transcript_json r = None.

(** ** Vocabulary of the retry/backoff properties *)

(** The outcome recorded for an exception class that ends the call at
    once, and for one that is exhausted by retrying. *)
Definition structural_status (c : exn_class) : option FetchStatus :=
  match c with
  | TranscriptsDisabled => Some DISABLED
  | NoTranscriptFound | NoTranscriptAvailable | NotTranslatable
  | TranslationLanguageNotAvailable => Some NOT_FOUND
  | VideoUnavailable => Some UNAVAILABLE
  | _ => None
  end.

Definition exhausted_status (c : exn_class) : FetchStatus :=
  match c with
  | TooManyRequests => RATE_LIMITED
  | _ => ERROR
  end.

Definition failure (video_id : pystr) (st : FetchStatus) (message : pystr)
    : FetchResult :=
  {| FetchResult.video_id := video_id;
     FetchResult.status := st;
     FetchResult.language := None;
     FetchResult.transcript := None;
     FetchResult.error_message := Some message |}.

(** Provider calls [first_call], ..., [first_call + n - 1], each but the
    last followed by the backoff sleep of its attempt index. *)
Definition backoff_log (api : YouTubeTranscriptApi) (video_id : pystr)
    (languages : list pystr) (retry_delay : Q) (first_call n : nat)
    (indices : list nat) : list event :=
  flat_map
    (λ i, EvFetch video_id languages (api (first_call + i)%nat)
          :: if bool_decide (S i < n)%nat
             then [EvSleep (backoff_seconds retry_delay (Z.of_nat i))]
             else [])
    indices.

(** A delay that [time.sleep] accepts: not negative, and short enough
    for the deadline to fit. *)
Definition delay_in_range (q : Q) : Prop :=
  (0 <= q)%Q ∧ (nanoseconds q <= inject_Z SLEEP_MAX_NS)%Q.

(** A base delay whose first [sleeps] backoff delays are all computed and
    accepted: attempt indices stay below 1024 and the longest delay, the
    last one, is in range. *)
Definition backoffs_in_range (q : Q) (sleeps : Z) : Prop :=
  (0 <= q)%Q ∧ sleeps ≤ 1024 ∧
  (nanoseconds (backoff_seconds q (sleeps - 1)) <= inject_Z SLEEP_MAX_NS)%Q.

(** A float below zero. *)
Definition float_negative (x : pyfloat) : Prop :=
  match x with
  | Finite q => (q < 0)%Q
  | Infinity negative => negative = true
  | NaN => False
  end.

(** Where an exception that leaves the call comes from: the backoff of
    an attempt that is not the last, raised by the product
    [retry_delay * (2 ** attempt)] or by [time.sleep] of it. *)
Definition backoff_raises (max_retries : Z) (retry_delay : pyfloat)
    (e : pyexn) : Prop :=
  ∃ attempt, 0 ≤ attempt < max_retries - 1 ∧
    (backoff retry_delay attempt = inl e ∨
     ∃ delay, backoff retry_delay attempt = inr delay ∧
              sleep_outcome delay = inl e).

(** ** Concrete stores and providers used below *)

Definition seg_hi : segment :=
  {[ py "text" := PyStr (py "hi");
     py "start" := PyFloat 0;
     py "duration" := PyFloat 2 ]}.

Definition row_hi : transcript_row :=
  {| t_language := Some (py "en");
     t_transcript_text := Some (py "hi");
     t_transcript_json := Some [seg_hi];
     t_fetch_status := Some (py "success");
     t_error_message := None;
     t_fetch_attempts := Some 1;
     t_fetched_at := Some 100 |}.

Definition failed_row (st : FetchStatus) (attempts : Z) : transcript_row :=
  {| t_language := None;
     t_transcript_text := None;
     t_transcript_json := None;
     t_fetch_status := Some (value st);
     t_error_message := Some (py "failed");
     t_fetch_attempts := Some attempts;
     t_fetched_at := Some 100 |}.

Definition db_empty : db :=
  {| youtube_videos := {[ py "v1" := Some 10 ]}; youtube_transcripts := ∅ |}.

Definition db_with (r : transcript_row) : db :=
  {| youtube_videos := {[ py "v1" := Some 10 ]};
     youtube_transcripts := {[ py "v1" := r ]} |}.

Definition w0 : world := {| calls := 0; log := [] |}.

Definition api_always (c : exn_class) : YouTubeTranscriptApi :=
  λ _, Raises (Raise c (py "provider said no")).

Definition writes_three : list write :=
  [ {| w_now := 1; w_language := None; w_transcript := None;
       w_status := RATE_LIMITED; w_error_message := Some (py "429");
       w_attempt_count := 1 |};
    {| w_now := 2; w_language := None; w_transcript := None;
       w_status := ERROR; w_error_message := Some (py "timeout");
       w_attempt_count := 1 |};
    {| w_now := 3; w_language := Some (py "en");
       w_transcript := Some [seg_hi];
       w_status := SUCCESS; w_error_message := None;
       w_attempt_count := 1 |} ].

(** The end-to-end scenario of the specification: two catalogued videos
    without records; the provider answers the first call with one segment
    and every later call with the video-unavailable condition. *)
Definition db_e2e : db :=
  {| youtube_videos := {[ py "v1" := Some 20; py "v2" := Some 10 ]};
     youtube_transcripts := ∅ |}.

Definition api_e2e : YouTubeTranscriptApi :=
  λ k, match k with
       | O => Fetched (py "en") [seg_hi]
       | _ => Raises (Raise VideoUnavailable (py "video unavailable"))
       end.

Definition env_e2e : environ :=
  {| TRANSCRIPT_BATCH_LIMIT := 10;
     TRANSCRIPT_SLEEP_SECONDS := Finite 1;
     TRANSCRIPT_MAX_RETRIES := 3;
     TRANSCRIPT_RETRY_DELAY := Finite 2;
     TRANSCRIPT_LANGUAGES := [py "en"] |}.

(** ** Reading the environment *)

(** [os.environ], a mapping from names to strings. *)
Abbreviation os_environ := (gmap pystr pystr).

(** [os.environ.get(name, default)] *)
Definition environ_get (env : os_environ) (name : pystr)
    (default : option pystr) : option pystr :=
  match env !! name with
  | Some v => Some v
  | None => default
  end.

(** [get_env]: the [RuntimeError] it raises is an [OtherException] of the
    model. *)
Definition get_env (env : os_environ) (name : pystr) (default : option pystr)
    : pyexn + pystr :=
  let v := environ_get env name default in
  match v with
  | None =>
      inl (Raise OtherException
             (py "Missing required environment variable: " ++ name))
  | Some v =>
      if decide (strip v = []) then
        inl (Raise OtherException
               (py "Missing required environment variable: " ++ name))
      else inr (strip v)
  end.

(** [s.split(sep)] for a separator of one character. *)
Fixpoint split_on (sep : N) (s : pystr) : list pystr :=
  match s with
  | [] => [[]]
  | c :: s' =>
      if (c =? sep)%N then [] :: split_on sep s'
      else match split_on sep s' with
           | piece :: pieces => (c :: piece) :: pieces
           | [] => [[c]]
           end
  end.

(** The [languages] that [main] computes:
    [[s.strip() for s in get_env("TRANSCRIPT_LANGUAGES", "en").split(",")
      if s.strip()]]. *)
Definition main_languages (env : os_environ) : pyexn + list pystr :=
  match get_env env (py "TRANSCRIPT_LANGUAGES") (Some (py "en")) with
  | inl e => inl e
  | inr v =>
      inr (map strip (filter (λ s, strip s ≠ []) (split_on 44 v)))
  end.

(** ** Vocabulary of the further properties *)

(** No whitespace at either end. *)
Definition stripped (s : pystr) : Prop :=
  (∀ c, head s = Some c → isspace c = false) ∧
  (∀ c, last s = Some c → isspace c = false).

Definition success (video_id language_code : pystr) (raw_data : list segment)
    : FetchResult :=
  {| FetchResult.video_id := video_id;
     FetchResult.status := SUCCESS;
     FetchResult.language := Some language_code;
     FetchResult.transcript := Some raw_data;
     FetchResult.error_message := None |}.

(** A provider call is for the given video and languages. *)
Definition own_event (video_id : pystr) (languages : list pystr) (ev : event)
    : Prop :=
  match ev with
  | EvFetch v l _ => v = video_id ∧ l = languages
  | EvSleep _ => True
  end.

(** A provider call is for one of the given videos. *)
Definition batch_event (video_ids : list pystr) (languages : list pystr)
    (ev : event) : Prop :=
  match ev with
  | EvFetch v l _ => v ∈ video_ids ∧ l = languages
  | EvSleep _ => True
  end.

(** What every [FetchResult] of the worker looks like: a success carries
    a language and a transcript and no error message, a failure carries an
    error message only. *)
Definition result_shape (res : FetchResult) : Prop :=
  match FetchResult.status res with
  | SUCCESS =>
      is_Some (FetchResult.language res) ∧
      is_Some (FetchResult.transcript res) ∧
      FetchResult.error_message res = None
  | _ =>
      FetchResult.language res = None ∧
      FetchResult.transcript res = None ∧
      is_Some (FetchResult.error_message res)
  end.

(** A provider that always answers, one that rate-limits twice before it
    answers, and one that rate-limits once before it reports the video
    unavailable. *)
Definition api_ok : YouTubeTranscriptApi :=
  λ _, Fetched (py "en") [seg_hi].

Definition api_flaky : YouTubeTranscriptApi :=
  λ k, match k with
       | 0%nat | 1%nat => Raises (Raise TooManyRequests (py "slow down"))
       | _ => Fetched (py "en") [seg_hi]
       end.

Definition api_then_gone : YouTubeTranscriptApi :=
  λ k, match k with
       | 0%nat => Raises (Raise TooManyRequests (py "slow down"))
       | _ => Raises (Raise VideoUnavailable (py "gone"))
       end.

(** Only whitespace, or nothing at all. *)
Definition blank (s : pystr) : Prop := Forall (λ c, isspace c = true) s.

Definition environ_languages (v : pystr) : os_environ :=
  {[ py "TRANSCRIPT_LANGUAGES" := v ]}.

(** The six counters of the run summary, added up. *)
Definition stats_total (s : gmap pystr Z) : Z :=
  foldr (λ st acc, default 0 (s !! value st) + acc) 0
    [SUCCESS; DISABLED; NOT_FOUND; UNAVAILABLE; RATE_LIMITED; ERROR].

Definition failed_row_at (st : FetchStatus) (attempts fetched_at : Z)
    : transcript_row :=
  {| t_language := None;
     t_transcript_text := None;
     t_transcript_json := None;
     t_fetch_status := Some (value st);
     t_error_message := Some (py "failed");
     t_fetch_attempts := Some attempts;
     t_fetched_at := Some fetched_at |}.

(** Two failed records and one video that was never attempted. *)
Definition db_mixed : db :=
  {| youtube_videos :=
       {[ py "v1" := Some 10; py "v2" := Some 20; py "v3" := None ]};
     youtube_transcripts :=
       {[ py "v1" := failed_row_at ERROR 1 300;
          py "v2" := failed_row_at RATE_LIMITED 2 200 ]} |}.

Definition seg_padded : segment :=
  {[ py "text" := PyStr (py "  hi there ") ]}.

Definition seg_bad : segment :=
  {[ py "text" := PyFloat 1 ]}.

(** A text with a NUL character in it. *)
Definition seg_nul : segment :=
  {[ py "text" := PyStr (py "h" ++ [0%N] ++ py "i") ]}.

(** ** Properties of the upsert *)

Lemma flatten_text_falsy tr : truthy tr = false → flatten_text tr = inr None.
Proof. unfold flatten_text. by intros ->. Qed.

Lemma flatten_text_truthy tr text :
  truthy tr = true → flatten_text tr = inr text → is_Some text.
Proof.
  unfold flatten_text. intros ->.
  destruct (str_join _ _); [done|]. intros [= <-]. eauto.
Qed.

Lemma upsert_transcript_inr c now vid lang tr st err ac c' :
  upsert_transcript c now vid lang tr st err ac = inr c' →
  ∃ text,
    flatten_text tr = inr text ∧
    youtube_videos c' = youtube_videos c ∧
    youtube_transcripts c' =
      insert_on_conflict_update now vid
        {| t_language := lang;
           t_transcript_text := text;
           t_transcript_json := if truthy tr then tr else None;
           t_fetch_status := Some (value st);
           t_error_message := err;
           t_fetch_attempts := Some ac;
           t_fetched_at := fetched_at_default now |}
        (youtube_transcripts c).
Proof.
  unfold upsert_transcript. destruct (flatten_text tr) as [e|text]; [done|].
  destruct (adapt_strings _) as [e|[]]; [done|].
  intros [= <-]. by exists text.
Qed.

Lemma lookup_insert_on_conflict_eq (now : Z) (k : pystr) (ex : transcript_row)
    (t : gmap pystr transcript_row) :
  insert_on_conflict_update now k ex t !! k =
  Some match t !! k with
       | None => ex
       | Some old =>
           {| t_language := t_language ex;
              t_transcript_text :=
                COALESCE (t_transcript_text ex) (t_transcript_text old);
              t_transcript_json :=
                COALESCE (t_transcript_json ex) (t_transcript_json old);
              t_fetch_status := t_fetch_status ex;
              t_error_message := t_error_message ex;
              t_fetch_attempts := sql_plus (t_fetch_attempts old) 1;
              t_fetched_at := Some now |}
       end.
Proof.
  unfold insert_on_conflict_update.
  destruct (t !! k); by rewrite lookup_insert_eq.
Qed.

Lemma lookup_insert_on_conflict_ne (now : Z) (k k' : pystr)
    (ex : transcript_row) (t : gmap pystr transcript_row) :
  k ≠ k' → insert_on_conflict_update now k ex t !! k' = t !! k'.
Proof.
  intros Hne. unfold insert_on_conflict_update.
  destruct (t !! k); by rewrite lookup_insert_ne.
Qed.

(** C1. Coalesce law of the upsert.  A write through [upsert_transcript]
    to an identifier that already has a record leaves the stored
    [transcript_text] and [transcript_json] as they were when the new
    outcome has no content ([None] or an empty segment list), whatever the
    stored values are and so in particular when they are non-null; when
    the new outcome has content, both are replaced with the new values,
    the flattened text and the segment list. *)
Theorem upsert_transcript_coalesce_law c now vid lang tr st err ac old c' :
  youtube_transcripts c !! vid = Some old →
  upsert_transcript c now vid lang tr st err ac = inr c' →
  ∃ new,
    youtube_transcripts c' !! vid = Some new ∧
    (truthy tr = false →
       t_transcript_text new = t_transcript_text old ∧
       t_transcript_json new = t_transcript_json old) ∧
    (truthy tr = true →
       ∃ text, flatten_text tr = inr (Some text) ∧
               t_transcript_text new = Some text ∧
               t_transcript_json new = tr).
Proof.
  intros Hold (text & Hflat & _ & Ht)%upsert_transcript_inr.
  rewrite Ht, lookup_insert_on_conflict_eq, Hold.
  eexists; split; [done|]. simpl. split; intros Htr.
  - rewrite (flatten_text_falsy _ Htr) in Hflat.
    injection Hflat as <-. by rewrite Htr.
  - destruct (flatten_text_truthy _ _ Htr Hflat) as [s ->].
    exists s. rewrite Htr. split; [done|].
    destruct tr as [[|]|]; done.
Qed.

Lemma upsert_transcript_coalesce_law_witness :
  youtube_transcripts (db_with row_hi) !! py "v1" = Some row_hi ∧
  (∃ c',
     upsert_transcript (db_with row_hi) 200 (py "v1") None None RATE_LIMITED
       (Some (py "429")) 1 = inr c' ∧
     ∃ new,
       youtube_transcripts c' !! py "v1" = Some new ∧
       t_transcript_text new = Some (py "hi") ∧
       t_transcript_json new = Some [seg_hi]) ∧
  (∃ c',
     upsert_transcript (db_with row_hi) 300 (py "v1") (Some (py "en"))
       (Some [seg_padded]) SUCCESS None 1 = inr c' ∧
     ∃ new,
       youtube_transcripts c' !! py "v1" = Some new ∧
       t_transcript_text new = Some (py "hi there") ∧
       t_transcript_json new = Some [seg_padded]).
Proof.
  split; [reflexivity|]. split.
  - eexists. split; [reflexivity|].
    edestruct (upsert_transcript_coalesce_law (db_with row_hi) 200 (py "v1")
                 None None RATE_LIMITED (Some (py "429")) 1 row_hi)
      as (new & Hnew & Hkeep & _); [reflexivity..|].
    exists new. split; [exact Hnew|]. exact (Hkeep eq_refl).
  - eexists. split; [reflexivity|].
    edestruct (upsert_transcript_coalesce_law (db_with row_hi) 300 (py "v1")
                 (Some (py "en")) (Some [seg_padded]) SUCCESS None 1 row_hi)
      as (new & Hnew & _ & Hreplace); [reflexivity..|].
    exists new. split; [exact Hnew|].
    destruct (Hreplace eq_refl) as (text & Hflat & Htext & Hjson).
    split; [|exact Hjson].
    rewrite Htext. vm_compute in Hflat. injection Hflat as <-. reflexivity.
Defined.

(** *** The attempts counter *)

Lemma apply_write_insert vid c w c' :
  youtube_transcripts c !! vid = None →
  apply_write vid c w = inr c' →
  youtube_transcripts c' !! vid ≫= t_fetch_attempts = Some (w_attempt_count w).
Proof.
  intros Hnone (text & _ & _ & Ht)%upsert_transcript_inr.
  by rewrite Ht, lookup_insert_on_conflict_eq, Hnone.
Qed.

Lemma apply_write_conflict vid c w c' a :
  youtube_transcripts c !! vid ≫= t_fetch_attempts = Some a →
  apply_write vid c w = inr c' →
  youtube_transcripts c' !! vid ≫= t_fetch_attempts = Some (a + 1).
Proof.
  intros Ha (text & _ & _ & Ht)%upsert_transcript_inr.
  rewrite Ht, lookup_insert_on_conflict_eq.
  destruct (youtube_transcripts c !! vid) as [old|]; [|done].
  simpl in *. by rewrite Ha.
Qed.

Lemma apply_writes_conflict vid ws : ∀ c c' a,
  youtube_transcripts c !! vid ≫= t_fetch_attempts = Some a →
  apply_writes vid c ws = inr c' →
  youtube_transcripts c' !! vid ≫= t_fetch_attempts
  = Some (a + Z.of_nat (length ws)).
Proof.
  induction ws as [|w ws IH]; intros c c' a Ha; simpl.
  - intros [= <-]. rewrite Ha. f_equal. lia.
  - destruct (apply_write vid c w) as [e|c1] eqn:Hw; [done|]. intros Hws.
    rewrite (IH c1 c' (a + 1)); [f_equal; lia| |done].
    by eapply apply_write_conflict.
Qed.

Lemma apply_writes_prefix vid ws k : ∀ c c',
  apply_writes vid c ws = inr c' →
  ∃ ck, apply_writes vid c (take k ws) = inr ck.
Proof.
  revert k. induction ws as [|w ws IH]; intros [|k] c c'; simpl; eauto.
  destruct (apply_write vid c w) as [e|c1]; [done|]. apply IH.
Qed.

Lemma attempts_after_nth vid c w ws c' k :
  youtube_transcripts c !! vid = None →
  apply_writes vid c (w :: ws) = inr c' →
  (1 ≤ k ≤ length (w :: ws))%nat →
  attempts_after vid c (w :: ws) k = Some (w_attempt_count w + Z.of_nat k - 1).
Proof.
  intros Hnone Hall Hk. unfold attempts_after.
  destruct k as [|k]; [lia|]. simpl in *.
  destruct (apply_write vid c w) as [e|c1] eqn:Hw; [done|].
  destruct (apply_writes_prefix vid ws k c1 c' Hall) as [ck Hck].
  rewrite Hck.
  rewrite (apply_writes_conflict vid (take k ws) c1 ck (w_attempt_count w));
    [|by eapply apply_write_insert|done].
  rewrite length_take. f_equal. lia.
Qed.

(** C2. For every identifier and every sequence of N writes through
    [upsert_transcript] to it, the first of which inserts the record:
    each write after the first increases [fetch_attempts] by exactly 1,
    the counter never decreases along the sequence, and after the N-th
    write it equals N when the first write passed the default attempt
    count 1. *)
Theorem fetch_attempts_counts_writes vid c w ws c' :
  youtube_transcripts c !! vid = None →
  apply_writes vid c (w :: ws) = inr c' →
  (∀ k, (1 ≤ k < length (w :: ws))%nat →
     ∃ a, attempts_after vid c (w :: ws) k = Some a ∧
          attempts_after vid c (w :: ws) (S k) = Some (a + 1)) ∧
  (∀ j k, (1 ≤ j ≤ k)%nat → (k ≤ length (w :: ws))%nat →
     ∃ a b, attempts_after vid c (w :: ws) j = Some a ∧
            attempts_after vid c (w :: ws) k = Some b ∧ a ≤ b) ∧
  (w_attempt_count w = default_attempt_count →
     youtube_transcripts c' !! vid ≫= t_fetch_attempts
     = Some (Z.of_nat (length (w :: ws)))).
Proof.
  intros Hnone Hall. split; [|split].
  - intros k Hk. eexists. split.
    + apply (attempts_after_nth vid c w ws c'); [done..|lia].
    + rewrite (attempts_after_nth vid c w ws c'); [|done..|lia].
      f_equal. lia.
  - intros j k Hj Hk. do 2 eexists. split; [|split].
    + apply (attempts_after_nth vid c w ws c'); [done..|lia].
    + apply (attempts_after_nth vid c w ws c'); [done..|lia].
    + lia.
  - intros Hdef.
    pose proof (attempts_after_nth vid c w ws c' (length (w :: ws)) Hnone Hall)
      as Hn.
    unfold attempts_after in Hn. rewrite firstn_all, Hall in Hn.
    rewrite Hn; [|simpl; lia]. rewrite Hdef. unfold default_attempt_count.
    f_equal. lia.
Qed.

Lemma fetch_attempts_counts_writes_witness :
  youtube_transcripts db_empty !! py "v1" = None ∧
  ∃ c',
    apply_writes (py "v1") db_empty writes_three = inr c' ∧
    youtube_transcripts c' !! py "v1" ≫= t_fetch_attempts = Some 3.
Proof.
  split; [reflexivity|].
  eexists. split; [reflexivity|].
  refine (proj2 (proj2 (fetch_attempts_counts_writes (py "v1") db_empty
            (mkWrite 1 None None RATE_LIMITED (Some (py "429")) 1)
            (tail writes_three) _ _ _)) _); reflexivity.
Defined.

(** *** Idempotence and paired nullness *)

(** C7. Writing the same SUCCESS outcome (same language, same segment
    list) twice in a row: the second write goes through whenever the first
    did, and the record it leaves has the same [transcript_text] and
    [transcript_json] as the record after the first write; [language],
    [fetch_status] and [error_message] agree too, every other record and
    the catalog are untouched, so that the two states differ only in
    [fetch_attempts], one more (by SQL addition), and in [fetched_at], the
    time of the second write. *)
Theorem persisting_success_twice c now1 now2 vid lang tr err ac1 ac2 c1 :
  upsert_transcript c now1 vid lang tr SUCCESS err ac1 = inr c1 →
  ∃ c2 r1 r2,
    upsert_transcript c1 now2 vid lang tr SUCCESS err ac2 = inr c2 ∧
    youtube_transcripts c1 !! vid = Some r1 ∧
    youtube_transcripts c2 !! vid = Some r2 ∧
    t_transcript_text r2 = t_transcript_text r1 ∧
    t_transcript_json r2 = t_transcript_json r1 ∧
    t_language r2 = t_language r1 ∧
    t_fetch_status r2 = t_fetch_status r1 ∧
    t_error_message r2 = t_error_message r1 ∧
    t_fetch_attempts r2 = sql_plus (t_fetch_attempts r1) 1 ∧
    t_fetched_at r2 = Some now2 ∧
    youtube_videos c2 = youtube_videos c1 ∧
    (∀ other, other ≠ vid →
       youtube_transcripts c2 !! other = youtube_transcripts c1 !! other).
Proof.
  intros H1. pose proof H1 as (text & Hflat & _ & Ht1)%upsert_transcript_inr.
  assert (∃ c2, upsert_transcript c1 now2 vid lang tr SUCCESS err ac2 = inr c2)
    as [c2 H2].
  { unfold upsert_transcript in H1 |- *. rewrite Hflat in H1 |- *.
    destruct (adapt_strings _) as [e|[]]; [done|by eexists]. }
  pose proof H2 as (text' & Hflat' & Hv2 & Ht2)%upsert_transcript_inr.
  assert (text' = text) as -> by congruence.
  exists c2. do 2 eexists. split; [done|].
  split; [by rewrite Ht1, lookup_insert_on_conflict_eq|].
  split; [by rewrite Ht2, lookup_insert_on_conflict_eq, Ht1,
               lookup_insert_on_conflict_eq|].
  destruct (youtube_transcripts c !! vid) as [old|]; simpl;
    repeat split; try done;
    try (by destruct text);
    try (by destruct (truthy tr), tr);
    intros other Hne; by rewrite Ht2, lookup_insert_on_conflict_ne.
Qed.

Lemma persisting_success_twice_witness :
  ∃ c1,
    upsert_transcript db_empty 1 (py "v1") (Some (py "en")) (Some [seg_hi])
      SUCCESS None 1 = inr c1 ∧
    ∃ c2 r1 r2,
      upsert_transcript c1 2 (py "v1") (Some (py "en")) (Some [seg_hi])
        SUCCESS None 1 = inr c2 ∧
      youtube_transcripts c1 !! py "v1" = Some r1 ∧
      youtube_transcripts c2 !! py "v1" = Some r2 ∧
      t_transcript_text r2 = t_transcript_text r1 ∧
      t_transcript_json r2 = t_transcript_json r1 ∧
      t_language r2 = t_language r1 ∧
      t_fetch_status r2 = t_fetch_status r1 ∧
      t_error_message r2 = t_error_message r1 ∧
      t_fetch_attempts r2 = sql_plus (t_fetch_attempts r1) 1 ∧
      t_fetched_at r2 = Some 2 ∧
      youtube_videos c2 = youtube_videos c1 ∧
      (∀ other, other ≠ py "v1" →
         youtube_transcripts c2 !! other = youtube_transcripts c1 !! other).
Proof.
  eexists. split; [reflexivity|].
  apply (persisting_success_twice db_empty 1 2 (py "v1") (Some (py "en"))
           (Some [seg_hi]) None 1 1).
  reflexivity.
Defined.

(** C8. Paired nullness.  After a write through [upsert_transcript] the
    stored [transcript_text] is NULL if and only if the stored
    [transcript_json] is: always when the write inserts the record, and on
    a conflicting write whenever the equivalence held of the record
    before. *)
Theorem upsert_transcript_paired c now vid lang tr st err ac c' :
  (∀ old, youtube_transcripts c !! vid = Some old → paired old) →
  upsert_transcript c now vid lang tr st err ac = inr c' →
  ∃ new, youtube_transcripts c' !! vid = Some new ∧ paired new.
Proof.
  intros Hold (text & Hflat & _ & Ht)%upsert_transcript_inr.
  rewrite Ht, lookup_insert_on_conflict_eq.
  eexists; split; [done|].
  assert (text = None ↔ (if truthy tr then tr else None) = None) as Hex.
  { destruct (truthy tr) eqn:Htr.
    - destruct (flatten_text_truthy _ _ Htr Hflat) as [s ->].
      destruct tr; done.
    - rewrite (flatten_text_falsy _ Htr) in Hflat. by injection Hflat as <-. }
  destruct (youtube_transcripts c !! vid) as [old|]; [|done].
  specialize (Hold old eq_refl). unfold paired in *. simpl.
  destruct text, (if truthy tr then tr else None); simpl; try done;
    intuition congruence.
Qed.

Lemma upsert_transcript_paired_witness :
  (∀ old, youtube_transcripts (db_with row_hi) !! py "v1" = Some old →
          paired old) ∧
  ∃ c',
    upsert_transcript (db_with row_hi) 200 (py "v1") None (Some []) ERROR
      (Some (py "boom")) 1 = inr c' ∧
    ∃ new, youtube_transcripts c' !! py "v1" = Some new ∧ paired new.
Proof.
  assert (∀ old, youtube_transcripts (db_with row_hi) !! py "v1" = Some old →
                 paired old) as Hold.
  { intros old H. vm_compute in H. injection H as <-. by split. }
  split; [exact Hold|].
  eexists. split; [reflexivity|].
  apply (upsert_transcript_paired (db_with row_hi) 200 (py "v1") None
           (Some []) ERROR (Some (py "boom")) 1); [exact Hold|reflexivity].
Defined.

(** ** Properties of the selection queries *)

Lemma LIMIT_subseteq {A} (n : Z) (rows out : list A) :
  LIMIT n rows = inr out → out ⊆ rows.
Proof.
  unfold LIMIT. destruct (n <? 0); [done|]. destruct (2 ^ 63 <=? n); [done|].
  intros [= <-]. apply subseteq_take.
Qed.

(** Every pair the retry-eligible query returns comes from a stored row
    on which its [WHERE] clause is TRUE. *)
Lemma fetch_failed_video_ids_sound conn limit max_attempts result vid :
  fetch_failed_video_ids conn limit max_attempts = inr result →
  vid ∈ result.*1 →
  ∃ row, youtube_transcripts conn !! vid = Some row ∧
         failed_condition max_attempts row = Some true.
Proof.
  unfold fetch_failed_video_ids.
  destruct (LIMIT _ _) as [e|rows] eqn:Hlim; [done|].
  intros [= <-] Hin.
  apply list_elem_of_fmap in Hin as ([vid' n] & -> & Hin).
  apply list_elem_of_fmap in Hin as ([vid'' row] & [= -> ->] & Hin).
  apply (LIMIT_subseteq _ _ _ Hlim) in Hin.
  unfold ORDER_BY_ASC in Hin. rewrite merge_sort_Permutation in Hin.
  apply list_elem_of_filter in Hin as [Hcond Hin].
  apply elem_of_map_to_list in Hin. by exists row.
Qed.

(** Every identifier the pending query returns has no transcript record. *)
Lemma fetch_pending_video_ids_sound conn limit ids vid :
  fetch_pending_video_ids conn limit = inr ids →
  vid ∈ ids →
  youtube_transcripts conn !! vid = None.
Proof.
  unfold fetch_pending_video_ids.
  destruct (LIMIT _ _) as [e|rows] eqn:Hlim; [done|].
  intros [= <-] Hin.
  apply list_elem_of_fmap in Hin as ([[vid' at'] t] & -> & Hin).
  apply (LIMIT_subseteq _ _ _ Hlim) in Hin.
  unfold ORDER_BY_DESC in Hin. rewrite merge_sort_Permutation in Hin.
  apply list_elem_of_filter in Hin as [Hcond Hin].
  apply list_elem_of_fmap in Hin as ([v s] & [= -> -> ->] & _).
  simpl in *. by destruct (youtube_transcripts conn !! v).
Qed.

(** C5, as amended.  The retry-eligible selection never returns an
    identifier whose stored [fetch_status] is DISABLED or UNAVAILABLE,
    whatever its [fetch_attempts].  (NOT_FOUND is not in the query's
    exclusion list.) *)
Theorem fetch_failed_excludes_disabled_unavailable
    conn limit max_attempts result vid row :
  fetch_failed_video_ids conn limit max_attempts = inr result →
  youtube_transcripts conn !! vid = Some row →
  t_fetch_status row = Some (value DISABLED) ∨
  t_fetch_status row = Some (value UNAVAILABLE) →
  vid ∉ result.*1.
Proof.
  intros Hq Hrow Hst Hin.
  destruct (fetch_failed_video_ids_sound _ _ _ _ _ Hq Hin)
    as (row' & Hrow' & Hcond).
  assert (row' = row) as -> by congruence.
  unfold failed_condition in Hcond.
  destruct Hst as [Hst | Hst]; rewrite Hst in Hcond;
    destruct (IS_NULL (t_transcript_text row)) as [[]|];
    destruct (sql_lt _ _) as [[]|]; done.
Qed.

Lemma fetch_failed_excludes_disabled_unavailable_witness :
  fetch_failed_video_ids (db_with (failed_row DISABLED 1)) 25
    default_max_attempts = inr [] ∧
  youtube_transcripts (db_with (failed_row DISABLED 1)) !! py "v1"
  = Some (failed_row DISABLED 1) ∧
  py "v1" ∉ (@nil (pystr * Z)).*1.
Proof.
  split; [reflexivity|]. split; [reflexivity|].
  apply (fetch_failed_excludes_disabled_unavailable
           (db_with (failed_row DISABLED 1)) 25 default_max_attempts []
           (py "v1") (failed_row DISABLED 1));
    [reflexivity | reflexivity | left; reflexivity].
Defined.

(** C5, as stated, fails for NOT_FOUND: a record with that status, no
    content and one attempt is returned by the retry-eligible query. *)
Lemma fetch_failed_returns_not_found :
  youtube_transcripts (db_with (failed_row NOT_FOUND 1)) !! py "v1"
  = Some (failed_row NOT_FOUND 1) ∧
  t_fetch_status (failed_row NOT_FOUND 1) = Some (value NOT_FOUND) ∧
  fetch_failed_video_ids (db_with (failed_row NOT_FOUND 1)) 25
    default_max_attempts = inr [(py "v1", 1)].
Proof. repeat split; reflexivity. Qed.

(** C9. The retry-eligible query filters on stored content: a record whose
    [transcript_text] is non-null is never returned, whatever its
    [fetch_status] and [fetch_attempts], and every identifier that is
    returned has a stored record without content. *)
Theorem fetch_failed_only_contentless conn limit max_attempts result :
  fetch_failed_video_ids conn limit max_attempts = inr result →
  (∀ vid row,
     youtube_transcripts conn !! vid = Some row →
     is_Some (t_transcript_text row) →
     vid ∉ result.*1) ∧
  (∀ vid,
     vid ∈ result.*1 →
     ∃ row, youtube_transcripts conn !! vid = Some row ∧
            t_transcript_text row = None).
Proof.
  intros Hq.
  assert (∀ vid, vid ∈ result.*1 →
            ∃ row, youtube_transcripts conn !! vid = Some row ∧
                   t_transcript_text row = None) as Hnull.
  { intros vid Hin.
    destruct (fetch_failed_video_ids_sound _ _ _ _ _ Hq Hin)
      as (row & Hrow & Hcond).
    exists row. split; [done|].
    unfold failed_condition in Hcond.
    destruct (t_transcript_text row); [|done]. by simpl in Hcond. }
  split; [|done].
  intros vid row Hrow [text Htext] Hin.
  destruct (Hnull vid Hin) as (row' & Hrow' & Hnone). congruence.
Qed.

Lemma fetch_failed_only_contentless_witness :
  fetch_failed_video_ids (db_with row_hi) 25 default_max_attempts = inr [] ∧
  py "v1" ∉ (@nil (pystr * Z)).*1.
Proof.
  split; [reflexivity|].
  apply (proj1 (fetch_failed_only_contentless (db_with row_hi) 25
                  default_max_attempts [] eq_refl) (py "v1") row_hi);
    [reflexivity | by eexists].
Defined.

(** C6, on the code.  A record with status RATE_LIMITED, no content and
    one attempt, below the ceiling of three: the retry-eligible query
    returns it, but [main] never runs that query.  Its batch is the
    pending population alone, which here is empty, so the run ends with
    no provider call and the store as it was. *)
Theorem main_skips_retryable_failed :
  fetch_failed_video_ids (db_with (failed_row RATE_LIMITED 1)) 25
    default_max_attempts = inr [(py "v1", 1)] ∧
  fetch_pending_video_ids (db_with (failed_row RATE_LIMITED 1)) 25 = inr [] ∧
  ∀ api clock,
    main default_environ api clock (db_with (failed_row RATE_LIMITED 1))
    = (inr (), {| conn := db_with (failed_row RATE_LIMITED 1);
                  stats := stats_init;
                  effects := w0 |}).
Proof. repeat split; reflexivity. Qed.

(** ** Properties of the retry/backoff loop *)

Lemma inject_Z_nonneg z : 0 ≤ z → (0 <= inject_Z z)%Q.
Proof. intros H. change 0%Q with (inject_Z 0). by rewrite <- Zle_Qle. Qed.

Lemma backoff_seconds_nonneg q a : (0 <= q)%Q → (0 <= backoff_seconds q a)%Q.
Proof.
  intros Hq. unfold backoff_seconds. apply Qmult_le_0_compat; [done|].
  apply inject_Z_nonneg, Z.pow_nonneg. lia.
Qed.

Lemma backoff_seconds_mono q a b :
  (0 <= q)%Q → 0 ≤ a ≤ b → (backoff_seconds q a <= backoff_seconds q b)%Q.
Proof.
  intros Hq Hab. unfold backoff_seconds.
  assert (inject_Z (2 ^ a) <= inject_Z (2 ^ b))%Q as H.
  { rewrite <- Zle_Qle. apply Z.pow_le_mono_r; lia. }
  nra.
Qed.

Lemma nanoseconds_mono x y : (x <= y)%Q → (nanoseconds x <= nanoseconds y)%Q.
Proof.
  unfold nanoseconds. intros H.
  assert (0 <= inject_Z (10 ^ 9))%Q by (apply inject_Z_nonneg; lia). nra.
Qed.

Lemma nanoseconds_nonneg x : (0 <= x)%Q → (0 <= nanoseconds x)%Q.
Proof.
  unfold nanoseconds. intros H. apply Qmult_le_0_compat; [done|].
  apply inject_Z_nonneg. lia.
Qed.

(** [time.sleep] accepts a delay in range and sleeps that long. *)
Lemma sleep_outcome_in_range x :
  delay_in_range x → sleep_outcome (Finite x) = inr x.
Proof.
  intros [H0 Hmax]. unfold sleep_outcome.
  assert (Qle_bool (inject_Z PYTIME_MIN) (nanoseconds x) = true) as ->.
  { apply Qle_bool_iff. apply Qle_trans with 0%Q.
    - change 0%Q with (inject_Z 0). rewrite <- Zle_Qle. by vm_compute.
    - by apply nanoseconds_nonneg. }
  assert (Qle_bool (nanoseconds x) (inject_Z PYTIME_MAX) = true) as ->.
  { apply Qle_bool_iff. eapply Qle_trans; [exact Hmax|].
    rewrite <- Zle_Qle. by vm_compute. }
  assert (Qle_bool 0 x = true) as -> by by apply Qle_bool_iff.
  assert (Qle_bool (nanoseconds x) (inject_Z SLEEP_MAX_NS) = true) as ->
    by by apply Qle_bool_iff.
  done.
Qed.

(** Within the range, the backoff of an attempt is computed and slept. *)
Lemma backoff_sleep_accepted q sleeps a :
  backoffs_in_range q sleeps → 0 ≤ a < sleeps →
  backoff (Finite q) a = inr (Finite (backoff_seconds q a)) ∧
  sleep_outcome (Finite (backoff_seconds q a)) = inr (backoff_seconds q a).
Proof.
  intros (Hq & Hn & Hmax) Ha. split.
  - unfold backoff. destruct (Z.leb_spec 1024 a); [lia|done].
  - apply sleep_outcome_in_range. split; [by apply backoff_seconds_nonneg|].
    eapply Qle_trans; [|exact Hmax].
    apply nanoseconds_mono, backoff_seconds_mono; [done|lia].
Qed.

Lemma sleep_outcome_negative x q : float_negative x → sleep_outcome x ≠ inr q.
Proof.
  unfold sleep_outcome, float_negative. destruct x as [q'|neg|]; [|done..].
  intros Hneg. destruct (_ && _); [|done].
  destruct (Qle_bool 0 q') eqn:Hb; [|done].
  apply Qle_bool_iff in Hb. by apply Qlt_not_le in Hneg.
Qed.

Section retry_loop_steps.
Variable api : YouTubeTranscriptApi.
Variable vid : pystr.
Variable langs : list pystr.
Variable max_retries : Z.
Variable rd ss : pyfloat.

Let loop := retry_loop api vid langs max_retries rd ss.
Let handler := on_exception vid max_retries rd.

(** One run of the [try] body: the provider answers and the pacing sleep
    is accepted, or an exception reaches the [except] clauses, raised by
    the provider or by the pacing sleep. *)
Lemma try_fetch_cases w :
  (∃ lc raw q,
     api (calls w) = Fetched lc raw ∧ sleep_outcome ss = inr q ∧
     try_fetch api vid langs ss w
     = (inr (success vid lc raw),
        {| calls := S (calls w);
           log := log w ++ [EvFetch vid langs (Fetched lc raw); EvSleep q] |}))
  ∨ (∃ e,
       try_fetch api vid langs ss w
       = (inl e,
          {| calls := S (calls w);
             log := log w ++ [EvFetch vid langs (api (calls w))] |}) ∧
       (api (calls w) = Raises e ∨
        ∃ lc raw, api (calls w) = Fetched lc raw ∧ sleep_outcome ss = inl e)).
Proof.
  unfold try_fetch, mbind, M_bind, bind, api_fetch, time_sleep.
  destruct (api (calls w)) as [lc raw|e] eqn:Hapi; simpl.
  - destruct (sleep_outcome ss) as [e|q] eqn:Hss; simpl.
    + right. exists e. split; [done|]. right. by exists lc, raw.
    + left. exists lc, raw, q. by rewrite <- app_assoc.
  - right. exists e. split; [done|]. by left.
Qed.

(** The [except] clauses: a structural condition returns at once, a
    transient one returns when the attempt is the last, and otherwise the
    backoff is computed and slept before the loop goes on, unless the
    computation or the sleep raises. *)
Lemma on_exception_cases attempt k e w :
  (∃ st, structural_status (exn_class_of e) = Some st ∧
         handler attempt k e w = (inr (failure vid st (exn_str e)), w))
  ∨ (structural_status (exn_class_of e) = None ∧
     (attempt <? max_retries - 1) = false ∧
     handler attempt k e w
     = (inr (failure vid (exhausted_status (exn_class_of e)) (exn_str e)), w))
  ∨ (structural_status (exn_class_of e) = None ∧
     (attempt <? max_retries - 1) = true ∧
     ∃ d q,
       backoff rd attempt = inr d ∧ sleep_outcome d = inr q ∧
       handler attempt k e w
       = k (Some (exn_str e))
           {| calls := calls w; log := log w ++ [EvSleep q] |})
  ∨ (structural_status (exn_class_of e) = None ∧
     (attempt <? max_retries - 1) = true ∧
     ∃ e',
       (backoff rd attempt = inl e' ∨
        ∃ d, backoff rd attempt = inr d ∧ sleep_outcome d = inl e') ∧
       handler attempt k e w = (inl e', w)).
Proof.
  unfold handler, on_exception.
  destruct (exn_class_of e); simpl;
    try (left; eexists; split; [done|]; done);
    right;
    (destruct (attempt <? max_retries - 1); [right|left; done]);
    unfold mbind, M_bind, bind, lift, time_sleep;
    (destruct (backoff rd attempt) as [e'|d] eqn:Hb;
     [right; split; [done|]; split; [done|]; exists e'; split; [by left|done]|]);
    (destruct (sleep_outcome d) as [e'|q] eqn:Hs;
     [right; split; [done|]; split; [done|]; exists e';
      split; [right; by exists d|done]
     |left; split; [done|]; split; [done|]; by exists d, q]).
Qed.

Lemma retry_loop_cons attempt rest le w :
  loop (attempt :: rest) le w
  = match try_fetch api vid langs ss w with
    | (inr res, w') => (inr res, w')
    | (inl e, w') => handler attempt (loop rest) e w'
    end.
Proof. done. Qed.

Lemma fetch_no_attempt w :
  max_retries ≤ 0 →
  fetch_transcript_with_retry api vid langs max_retries rd ss w
  = (inr (failure vid ERROR (py "Unknown error after retries")), w).
Proof.
  intros Hle. unfold fetch_transcript_with_retry. by rewrite seqZ_nil.
Qed.

Lemma fetch_first_structural w e st :
  0 < max_retries →
  api (calls w) = Raises e →
  structural_status (exn_class_of e) = Some st →
  fetch_transcript_with_retry api vid langs max_retries rd ss w
  = (inr (failure vid st (exn_str e)),
     {| calls := S (calls w);
        log := log w ++ [EvFetch vid langs (Raises e)] |}).
Proof.
  intros Hpos Hapi Hst. unfold fetch_transcript_with_retry.
  rewrite seqZ_cons by done. fold loop. rewrite retry_loop_cons.
  destruct (try_fetch_cases w)
    as [(lc & raw & q & Hapi' & _)|(e' & -> & Hraised)]; [congruence|].
  assert (e' = e) as ->.
  { destruct Hraised as [?|(lc & raw & ? & _)]; congruence. }
  rewrite Hapi.
  match goal with |- handler ?a ?k e ?w1 = _ =>
    destruct (on_exception_cases a k e w1)
      as [(st' & Hst' & ->)|[(? & _)|[(? & _)|(? & _)]]]; try congruence
  end.
Qed.

(** What holds of every run of the loop, whatever the provider does. *)
Lemma retry_loop_invariant attempts : ∀ le w,
  let out := loop attempts le w in
  (calls out.2 ≤ calls w + length attempts)%nat ∧
  (∃ evs, log out.2 = log w ++ evs ∧ Forall (own_event vid langs) evs) ∧
  (∀ res, out.1 = inr res →
     FetchResult.video_id res = vid ∧ result_shape res ∧
     ((∀ q, sleep_outcome ss ≠ inr q) → FetchResult.status res ≠ SUCCESS)) ∧
  (∀ e, out.1 = inl e →
     ∃ a, a ∈ attempts ∧ a < max_retries - 1 ∧
          (backoff rd a = inl e ∨
           ∃ d, backoff rd a = inr d ∧ sleep_outcome d = inl e)).
Proof.
  induction attempts as [|attempt rest IH]; intros le w.
  - simpl. split; [lia|]. split; [exists []; by rewrite app_nil_r|].
    split; [|done]. intros res [= <-]. simpl.
    split; [done|]. split; [|done]. unfold result_shape. simpl. eauto.
  - rewrite retry_loop_cons. cbv zeta.
    destruct (try_fetch_cases w)
      as [(lc & raw & q & Hapi & Hss & ->)|(e & -> & Hraised)]; simpl.
    { split; [lia|].
      split; [eexists; split; [done|]; by repeat constructor|].
      split; [|done]. intros res [= <-]. simpl.
      split; [done|]. split; [|intros Hno; by destruct (Hno q)].
      unfold result_shape. simpl. eauto. }
    set (w1 := {| calls := S (calls w);
                  log := log w ++ [EvFetch vid langs (api (calls w))] |}).
    assert (Forall (own_event vid langs) [EvFetch vid langs (api (calls w))])
      as Hown by (by repeat constructor).
    destruct (on_exception_cases attempt (loop rest) e w1)
      as [(st & Hst & ->)|[(Hst & Hlt & ->)|[(Hst & Hlt & d & q & Hb & Hs & ->)
          |(Hst & Hlt & e' & He' & ->)]]]; simpl.
    + split; [lia|]. split; [by eexists|]. split; [|done].
      intros res [= <-]. simpl. split; [done|].
      unfold result_shape.
      destruct (exn_class_of e); simplify_eq/=; eauto.
    + split; [lia|]. split; [by eexists|]. split; [|done].
      intros res [= <-]. simpl. split; [done|].
      unfold result_shape.
      destruct (exn_class_of e); simplify_eq/=; eauto.
    + specialize (IH (Some (exn_str e))
                     {| calls := calls w1; log := log w1 ++ [EvSleep q] |}).
      simpl in IH. destruct IH as (Hc & (evs & Hlog & Hevs) & Hres & Hexn).
      split; [lia|]. split; [|split; [done|]].
      * eexists. split; [by rewrite Hlog, <- !app_assoc|].
        by repeat constructor.
      * intros e' He'. destruct (Hexn e' He') as (a & Ha & Hrest).
        exists a. split; [by right|done].
    + split; [lia|]. split; [by eexists|]. split; [done|].
      intros e'' [= <-]. exists attempt. split; [by left|]. split; [lia|done].
Qed.

End retry_loop_steps.

Section transient_prefix.
Variable api : YouTubeTranscriptApi.
Variable vid : pystr.
Variable langs : list pystr.
Variable max_retries : Z.
Variable q : Q.
Variable ss : pyfloat.
Variable first_call : nat.

(** Attempts that fail transiently and are not the last one are each
    followed by their backoff sleep, and the loop goes on. *)
Lemma retry_loop_skip_transient k : ∀ a le w rest,
  calls w = (first_call + a)%nat →
  Z.of_nat (a + k) < max_retries →
  backoffs_in_range q (Z.of_nat (a + k)) →
  (∀ i, (a ≤ i < a + k)%nat →
     ∃ e, api (first_call + i)%nat = Raises e ∧
          structural_status (exn_class_of e) = None) →
  ∃ le',
    retry_loop api vid langs max_retries (Finite q) ss
      (seqZ (Z.of_nat a) (Z.of_nat k) ++ rest) le w
    = retry_loop api vid langs max_retries (Finite q) ss rest le'
        {| calls := first_call + a + k;
           log := log w ++ backoff_log api vid langs q first_call
                             (Z.to_nat max_retries) (seq a k) |}.
Proof.
  induction k as [|k IH]; intros a le w rest Hcalls Hlt Hrange Htr.
  - exists le. simpl. rewrite app_nil_r.
    replace (first_call + a + 0)%nat with (calls w) by lia. by destruct w.
  - rewrite seqZ_cons by lia.
    replace (Z.succ (Z.of_nat a)) with (Z.of_nat (S a)) by lia.
    replace (Z.pred (Z.of_nat (S k))) with (Z.of_nat k) by lia.
    simpl app.
    rewrite (retry_loop_cons api vid langs max_retries (Finite q) ss).
    destruct (Htr a) as (e & Hapi & Hst); [lia|].
    rewrite <- Hcalls in Hapi.
    destruct (try_fetch_cases api vid langs ss w)
      as [(lc & raw & s & Hapi' & _)|(e' & -> & Hraised)]; [congruence|].
    assert (e' = e) as ->.
    { destruct Hraised as [?|(lc & raw & ? & _)]; congruence. }
    rewrite Hapi.
    destruct (backoff_sleep_accepted q _ (Z.of_nat a) Hrange) as [Hb Hs];
      [lia|].
    destruct (on_exception_cases vid max_retries (Finite q) (Z.of_nat a)
                (retry_loop api vid langs max_retries (Finite q) ss
                   (seqZ (Z.of_nat (S a)) (Z.of_nat k) ++ rest)) e
                {| calls := S (calls w);
                   log := log w ++ [EvFetch vid langs (Raises e)] |})
      as [(st & Hst' & _)|[(_ & Hlt' & _)
          |[(_ & _ & d & s & Hb' & Hs' & ->)|(_ & _ & e' & He' & _)]]].
    + congruence.
    + lia.
    + assert (d = Finite (backoff_seconds q (Z.of_nat a))) as -> by congruence.
      assert (s = backoff_seconds q (Z.of_nat a)) as -> by congruence.
      cbn [calls log].
      destruct (IH (S a) (Some (exn_str e))
                  {| calls := S (calls w);
                     log := (log w ++ [EvFetch vid langs (Raises e)])
                            ++ [EvSleep (backoff_seconds q (Z.of_nat a))] |}
                  rest)
        as [le' ->].
      * simpl. lia.
      * lia.
      * by replace (S a + k)%nat with (a + S k)%nat by lia.
      * intros i Hi. apply Htr. lia.
      * exists le'. f_equal. f_equal; [lia|].
        unfold backoff_log. simpl.
        rewrite bool_decide_eq_true_2 by lia.
        rewrite <- Hcalls, Hapi. by rewrite <- !app_assoc.
    + destruct He' as [?|(d & ? & ?)]; congruence.
Qed.

End transient_prefix.

Lemma seqZ_split_at (k n : nat) :
  (k < n)%nat →
  seqZ 0 (Z.of_nat n)
  = seqZ (Z.of_nat 0) (Z.of_nat k)
    ++ Z.of_nat k :: seqZ (Z.of_nat (S k)) (Z.of_nat (n - S k)).
Proof.
  intros Hk. replace (Z.of_nat n) with (Z.of_nat k + Z.of_nat (n - k)) by lia.
  rewrite seqZ_app by lia. f_equal. rewrite seqZ_cons by lia.
  f_equal. f_equal; lia.
Qed.

(** Where the loop stands once the first [k] attempts have failed
    transiently: at attempt [k], with the calls and sleeps so far in the
    log. *)
Lemma fetch_after_transient api vid langs max_retries q ss w k :
  Z.of_nat k < max_retries →
  backoffs_in_range q (Z.of_nat k) →
  (∀ i, (i < k)%nat →
     ∃ e, api (calls w + i)%nat = Raises e ∧
          structural_status (exn_class_of e) = None) →
  ∃ le' rest,
    fetch_transcript_with_retry api vid langs max_retries (Finite q) ss w
    = retry_loop api vid langs max_retries (Finite q) ss
        (Z.of_nat k :: rest) le'
        {| calls := calls w + k;
           log := log w ++ backoff_log api vid langs q (calls w)
                             (Z.to_nat max_retries) (seq 0 k) |}.
Proof.
  intros Hk Hrange Htr. unfold fetch_transcript_with_retry.
  assert (seqZ 0 max_retries = seqZ 0 (Z.of_nat (Z.to_nat max_retries)))
    as -> by (f_equal; lia).
  rewrite (seqZ_split_at k) by lia.
  destruct (retry_loop_skip_transient api vid langs max_retries q ss (calls w)
              k 0%nat None w
              (Z.of_nat k :: seqZ (Z.of_nat (S k))
                               (Z.of_nat (Z.to_nat max_retries - S k))))
    as [le' ->]; [lia|lia|done|intros i Hi; apply Htr; lia|].
  exists le'. eexists. f_equal. f_equal. lia.
Qed.

(** C10. With [max_retries] zero or negative the provider is never called:
    the call returns status ERROR with the message "Unknown error after
    retries" and leaves the call counter and the log as they were. *)
Theorem no_retries_no_provider_call api vid langs max_retries rd ss w :
  max_retries ≤ 0 →
  fetch_transcript_with_retry api vid langs max_retries rd ss w
  = (inr {| FetchResult.video_id := vid;
            FetchResult.status := ERROR;
            FetchResult.language := None;
            FetchResult.transcript := None;
            FetchResult.error_message :=
              Some (py "Unknown error after retries") |},
     w).
Proof. apply fetch_no_attempt. Qed.

Lemma no_retries_no_provider_call_witness :
  0 ≤ 0 ∧
  fetch_transcript_with_retry (api_always TooManyRequests) (py "v1")
    [py "en"] 0 (Finite 2) (Finite 1) w0
  = (inr (failure (py "v1") ERROR (py "Unknown error after retries")), w0).
Proof.
  split; [lia|].
  apply (no_retries_no_provider_call (api_always TooManyRequests) (py "v1")
           [py "en"] 0 (Finite 2) (Finite 1) w0).
  lia.
Defined.

(** C3, as amended.  Structural outcomes take one attempt.  For every
    configuration that allows at least one attempt ([max_retries] at
    least 1): if the provider raises the transcripts-disabled condition,
    one of the no-transcript conditions or the video-unavailable
    condition on the first attempt, the call returns DISABLED, NOT_FOUND
    or UNAVAILABLE respectively with the exception's text, and that
    provider call is all it did: exactly one call and no sleep, whatever
    [max_retries], the delays and the pacing are. *)
Theorem structural_outcome_one_attempt
    api vid langs max_retries rd ss w e st :
  0 < max_retries →
  api (calls w) = Raises e →
  structural_status (exn_class_of e) = Some st →
  fetch_transcript_with_retry api vid langs max_retries rd ss w
  = (inr {| FetchResult.video_id := vid;
            FetchResult.status := st;
            FetchResult.language := None;
            FetchResult.transcript := None;
            FetchResult.error_message := Some (exn_str e) |},
     {| calls := S (calls w);
        log := log w ++ [EvFetch vid langs (Raises e)] |}).
Proof. apply fetch_first_structural. Qed.

Lemma structural_outcome_one_attempt_witness :
  0 < 3 ∧
  structural_status TranscriptsDisabled = Some DISABLED ∧
  fetch_transcript_with_retry (api_always TranscriptsDisabled) (py "v1")
    [py "en"] 3 (Finite 2) (Finite 1) w0
  = (inr (failure (py "v1") DISABLED (py "provider said no")),
     {| calls := 1;
        log := [EvFetch (py "v1") [py "en"]
                  (Raises (Raise TranscriptsDisabled (py "provider said no")))]
     |}).
Proof.
  split; [lia|]. split; [reflexivity|].
  apply (structural_outcome_one_attempt (api_always TranscriptsDisabled)
           (py "v1") [py "en"] 3 (Finite 2) (Finite 1) w0
           (Raise TranscriptsDisabled (py "provider said no")) DISABLED);
    [lia|reflexivity..].
Defined.

(** C3, as stated, fails where no attempt is allowed.  With
    [max_retries = 0] a provider that raises the transcripts-disabled
    condition on every call is never called: the call returns ERROR with
    the text "Unknown error after retries", not DISABLED, after no
    provider call at all. *)
Lemma structural_outcome_zero_retries :
  (∀ k, api_always TranscriptsDisabled k
        = Raises (Raise TranscriptsDisabled (py "provider said no"))) ∧
  structural_status TranscriptsDisabled = Some DISABLED ∧
  fetch_transcript_with_retry (api_always TranscriptsDisabled) (py "v1")
    [py "en"] 0 (Finite 2) (Finite 1) w0
  = (inr (failure (py "v1") ERROR (py "Unknown error after retries")), w0).
Proof. repeat split; reflexivity. Qed.

(** C4, as amended.  With at least one attempt allowed and a
    [retry_delay] whose backoff delays are in range (not negative, at
    most 1025 attempts, and the longest delay,
    [retry_delay * 2^(max_retries - 2)], accepted by the clock): if every
    attempt raises the rate-limit exception or another exception that is
    not one of the structural conditions, the call makes exactly
    [max_retries] provider calls, sleeps [retry_delay * 2^i] after
    attempt [i] for each attempt but the last, and returns the last
    error's text with status RATE_LIMITED when the last exception was the
    rate-limit one and ERROR otherwise. *)
Theorem transient_outcomes_backoff
    api vid langs max_retries q ss w e_last :
  1 ≤ max_retries →
  backoffs_in_range q (max_retries - 1) →
  (∀ i, (i < Z.to_nat max_retries)%nat →
     ∃ e, api (calls w + i)%nat = Raises e ∧
          structural_status (exn_class_of e) = None) →
  api (calls w + Z.to_nat max_retries - 1)%nat = Raises e_last →
  fetch_transcript_with_retry api vid langs max_retries (Finite q) ss w
  = (inr {| FetchResult.video_id := vid;
            FetchResult.status := exhausted_status (exn_class_of e_last);
            FetchResult.language := None;
            FetchResult.transcript := None;
            FetchResult.error_message := Some (exn_str e_last) |},
     {| calls := calls w + Z.to_nat max_retries;
        log := log w
               ++ backoff_log api vid langs q (calls w)
                    (Z.to_nat max_retries) (seq 0 (Z.to_nat max_retries)) |}).
Proof.
  intros Hmax Hrange Hall Hlast.
  destruct (Z.to_nat max_retries) as [|k] eqn:Hn; [lia|].
  assert (max_retries - 1 = Z.of_nat k) as Hk by lia.
  rewrite Hk in Hrange.
  destruct (fetch_after_transient api vid langs max_retries q ss w k)
    as (le' & rest & ->); [lia|done|intros i Hi; apply Hall; lia|].
  rewrite Hn.
  rewrite (retry_loop_cons api vid langs max_retries (Finite q) ss).
  replace (calls w + S k - 1)%nat with (calls w + k)%nat in Hlast by lia.
  destruct (Hall k) as (e & Hapi & Hst); [lia|].
  assert (e = e_last) as -> by congruence.
  match goal with |- context [try_fetch _ _ _ _ ?w1] =>
    destruct (try_fetch_cases api vid langs ss w1)
      as [(lc & raw & s & Hapi' & _)|(e' & -> & Hraised)];
      cbn [calls log] in *; [congruence|]
  end.
  assert (e' = e_last) as ->.
  { destruct Hraised as [?|(lc & raw & ? & _)]; congruence. }
  match goal with |- on_exception ?v ?m ?d ?a ?kk e_last ?w1 = _ =>
    destruct (on_exception_cases v m d a kk e_last w1)
      as [(st & Hst' & _)|[(_ & _ & ->)|[(_ & Hlt & _)|(_ & Hlt & _)]]];
      [congruence| |lia|lia]
  end.
  unfold failure. f_equal. f_equal; [lia|].
  rewrite seq_S, Hapi. unfold backoff_log. rewrite flat_map_app. simpl.
  rewrite bool_decide_eq_false_2 by lia.
  by rewrite Hapi, app_nil_r, <- app_assoc.
Qed.

Lemma transient_outcomes_backoff_witness :
  1 ≤ 3 ∧ backoffs_in_range 2 (3 - 1) ∧
  fetch_transcript_with_retry (api_always TooManyRequests) (py "v1")
    [py "en"] 3 (Finite 2) (Finite 1) w0
  = (inr (failure (py "v1") RATE_LIMITED (py "provider said no")),
     {| calls := 3;
        log :=
          [EvFetch (py "v1") [py "en"]
             (Raises (Raise TooManyRequests (py "provider said no")));
           EvSleep (backoff_seconds 2 0);
           EvFetch (py "v1") [py "en"]
             (Raises (Raise TooManyRequests (py "provider said no")));
           EvSleep (backoff_seconds 2 1);
           EvFetch (py "v1") [py "en"]
             (Raises (Raise TooManyRequests (py "provider said no")))] |}).
Proof.
  assert (1 ≤ 3) as H1 by lia.
  assert (backoffs_in_range 2 (3 - 1)) as H2.
  { split; [|split]; [apply Qle_bool_iff; reflexivity | lia
                     | apply Qle_bool_iff; reflexivity]. }
  split; [exact H1|]. split; [exact H2|].
  apply (transient_outcomes_backoff (api_always TooManyRequests) (py "v1")
           [py "en"] 3 2 (Finite 1) w0
           (Raise TooManyRequests (py "provider said no")) H1 H2).
  - intros i _. eexists. split; reflexivity.
  - reflexivity.
Defined.

(** C4, as stated, fails in four ways for a provider that always
    rate-limits.  With [max_retries = 0] it is never called and the call
    returns ERROR with the text "Unknown error after retries", not
    RATE_LIMITED with the provider's text.  With a negative [retry_delay]
    the first backoff sleep raises [ValueError] out of the handler: the
    call makes one provider call, not [max_retries], and returns nothing.
    With a [retry_delay] of [1e10] seconds the first backoff sleep raises
    [OverflowError] in the same way.  And with [max_retries = 1026] and a
    [retry_delay] of zero the product [retry_delay * (2 ** 1024)] raises
    [OverflowError] after 1025 provider calls. *)
Lemma transient_outcomes_edge_cases :
  (∀ k, api_always TooManyRequests k
        = Raises (Raise TooManyRequests (py "provider said no"))) ∧
  fetch_transcript_with_retry (api_always TooManyRequests) (py "v1")
    [py "en"] 0 (Finite 2) (Finite 1) w0
  = (inr (failure (py "v1") ERROR (py "Unknown error after retries")), w0) ∧
  fetch_transcript_with_retry (api_always TooManyRequests) (py "v1")
    [py "en"] 3 (Finite (-1)) (Finite 1) w0
  = (inl (Raise ValueError (py "sleep length must be non-negative")),
     {| calls := 1;
        log := [EvFetch (py "v1") [py "en"]
                  (Raises (Raise TooManyRequests (py "provider said no")))]
     |}) ∧
  fetch_transcript_with_retry (api_always TooManyRequests) (py "v1")
    [py "en"] 3 (Finite 10000000000) (Finite 1) w0
  = (inl (Raise OverflowError
            (py "timestamp too large to convert to C _PyTime_t")),
     {| calls := 1;
        log := [EvFetch (py "v1") [py "en"]
                  (Raises (Raise TooManyRequests (py "provider said no")))]
     |}) ∧
  (let out :=
     fetch_transcript_with_retry (api_always TooManyRequests) (py "v1")
       [py "en"] 1026 (Finite 0) (Finite 1) w0 in
   out.1 = inl (Raise OverflowError (py "int too large to convert to float")) ∧
   calls out.2 = 1025%nat).
Proof. repeat split; vm_compute; reflexivity. Qed.

(** ** The end-to-end scenario of the specification *)

Example main_end_to_end :
  let r := main env_e2e api_e2e (λ i, 1000 + Z.of_nat i) db_e2e in
  r.1 = inr () ∧
  youtube_transcripts (conn r.2) !! py "v1"
  = Some {| t_language := Some (py "en");
            t_transcript_text := Some (py "hi");
            t_transcript_json := Some [seg_hi];
            t_fetch_status := Some (py "success");
            t_error_message := None;
            t_fetch_attempts := Some 1;
            t_fetched_at := Some 1001 |} ∧
  youtube_transcripts (conn r.2) !! py "v2"
  = Some {| t_language := None;
            t_transcript_text := None;
            t_transcript_json := None;
            t_fetch_status := Some (py "unavailable");
            t_error_message := Some (py "video unavailable");
            t_fetch_attempts := Some 1;
            t_fetched_at := Some 1002 |} ∧
  stats r.2 !! py "success" = Some 1 ∧
  stats r.2 !! py "unavailable" = Some 1 ∧
  log (effects r.2)
  = [EvFetch (py "v1") [py "en"] (Fetched (py "en") [seg_hi]);
     EvSleep 1;
     EvFetch (py "v2") [py "en"]
       (Raises (Raise VideoUnavailable (py "video unavailable")))].
Proof. vm_compute. repeat split; reflexivity. Qed.

(** ** More on the selection queries *)

Lemma asc_nulls_last_trans a b c :
  asc_nulls_last a b → asc_nulls_last b c → asc_nulls_last a c.
Proof. destruct a, b, c; simpl; try done. lia. Qed.

Lemma asc_nulls_last_total a b : asc_nulls_last a b ∨ asc_nulls_last b a.
Proof. destruct a, b; simpl; auto. lia. Qed.

Lemma StronglySorted_lookup_lt {A} (R : relation A) (l : list A) i j x y :
  StronglySorted R l → (i < j)%nat → l !! i = Some x → l !! j = Some y →
  R x y.
Proof.
  intros Hl. revert i j. induction Hl as [|a l Hl IH Hall]; intros i j Hij Hi Hj.
  - done.
  - destruct j as [|j]; [lia|]. destruct i as [|i]; simpl in *.
    + injection Hi as <-. rewrite Forall_forall in Hall.
      apply Hall. by eapply list_elem_of_lookup_2.
    + apply (IH i j); [lia|done..].
Qed.

Section order_by_limit.
Context {A : Type} (col : A → option Z).

Lemma ORDER_BY_ASC_sorted (rows : list A) :
  StronglySorted (λ r1 r2, asc_nulls_last (col r1) (col r2))
    (ORDER_BY_ASC col rows).
Proof.
  assert (Transitive (λ r1 r2, asc_nulls_last (col r1) (col r2))).
  { intros r1 r2 r3. apply asc_nulls_last_trans. }
  assert (Total (λ r1 r2, asc_nulls_last (col r1) (col r2))).
  { intros r1 r2. apply asc_nulls_last_total. }
  by apply StronglySorted_merge_sort.
Qed.

Lemma ORDER_BY_DESC_sorted (rows : list A) :
  StronglySorted (λ r1 r2, asc_nulls_last (col r2) (col r1))
    (ORDER_BY_DESC col rows).
Proof.
  assert (Transitive (λ r1 r2, asc_nulls_last (col r2) (col r1))).
  { intros r1 r2 r3 H12 H23. by eapply asc_nulls_last_trans. }
  assert (Total (λ r1 r2, asc_nulls_last (col r2) (col r1))).
  { intros r1 r2. apply asc_nulls_last_total. }
  by apply StronglySorted_merge_sort.
Qed.

Lemma LIMIT_sorted (R : relation A) n (rows out : list A) :
  StronglySorted R rows → LIMIT n rows = inr out → StronglySorted R out.
Proof.
  unfold LIMIT. destruct (n <? 0); [done|]. destruct (2 ^ 63 <=? n); [done|].
  intros Hs [= <-].
  rewrite <- (take_drop (Z.to_nat n) rows) in Hs.
  by apply StronglySorted_app_1_l in Hs.
Qed.

Lemma LIMIT_length n (rows out : list A) :
  LIMIT n rows = inr out → Z.of_nat (length out) ≤ n.
Proof.
  unfold LIMIT. destruct (n <? 0) eqn:Hn; [done|].
  destruct (2 ^ 63 <=? n); [done|]. intros [= <-].
  rewrite length_take. lia.
Qed.

Lemma LIMIT_sublist n (rows out : list A) :
  LIMIT n rows = inr out → out `sublist_of` rows.
Proof.
  unfold LIMIT. destruct (n <? 0); [done|]. destruct (2 ^ 63 <=? n); [done|].
  intros [= <-]. apply sublist_take.
Qed.

Lemma LIMIT_in_range n (rows out : list A) :
  LIMIT n rows = inr out → 0 ≤ n < 2 ^ 63.
Proof.
  unfold LIMIT. destruct (Z.ltb_spec n 0); [done|].
  destruct (Z.leb_spec (2 ^ 63) n); [done|]. lia.
Qed.

Lemma LIMIT_all n (rows : list A) :
  Z.of_nat (length rows) ≤ n → n < 2 ^ 63 → LIMIT n rows = inr rows.
Proof.
  intros Hn Hmax. unfold LIMIT. destruct (n <? 0) eqn:Hneg; [lia|].
  destruct (Z.leb_spec (2 ^ 63) n); [lia|].
  rewrite take_ge; [done|lia].
Qed.

End order_by_limit.

Lemma failed_condition_true max_attempts row :
  failed_condition max_attempts row = Some true ↔
  t_transcript_text row = None ∧
  (∃ s, t_fetch_status row = Some s ∧
        s ≠ py "disabled" ∧ s ≠ py "unavailable") ∧
  default 1 (t_fetch_attempts row) < max_attempts.
Proof.
  unfold failed_condition, IS_NULL, NOT_IN, sql_lt, COALESCE.
  destruct (t_transcript_text row) as [text|]; simpl.
  { split; [done | by intros [[=] _]]. }
  destruct (t_fetch_status row) as [s|]; simpl.
  2: { split; [|by intros (_ & (s & [=] & _) & _)].
       by destruct (t_fetch_attempts row); simpl; destruct (_ <? _). }
  assert (bool_decide (s ∈ [py "disabled"; py "unavailable"]) = false
          ↔ s ≠ py "disabled" ∧ s ≠ py "unavailable") as Hs.
  { rewrite bool_decide_eq_false, !elem_of_cons, elem_of_nil. tauto. }
  destruct (t_fetch_attempts row) as [n|]; simpl;
    [|set (n := 1)];
    destruct (bool_decide _); destruct (Z.ltb_spec n max_attempts); simpl.
  all: split; [try done|].
  all: try (intros _; split; [done|]; split; [|done];
            exists s; split; [done|]; by apply Hs).
  all: intros (_ & (s' & [= <-] & Hd & Hu) & Hlt); try lia.
  all: by destruct Hs as [_ Hs]; specialize (Hs (conj Hd Hu)).
Qed.

Lemma ORDER_BY_ASC_perm {A} (col : A → option Z) rows :
  ORDER_BY_ASC col rows ≡ₚ rows.
Proof. apply merge_sort_Permutation. Qed.

Lemma ORDER_BY_DESC_perm {A} (col : A → option Z) rows :
  ORDER_BY_DESC col rows ≡ₚ rows.
Proof. apply merge_sort_Permutation. Qed.

Lemma LIMIT_permuted_NoDup {A B} (g : A → B) n (rows sorted out : list A) :
  sorted ≡ₚ rows → LIMIT n sorted = inr out →
  NoDup (g <$> rows) → NoDup (g <$> out).
Proof.
  intros Hp Hl Hn. rewrite <- Hp in Hn.
  eapply sublist_NoDup; [done|]. apply fmap_sublist. by eapply LIMIT_sublist.
Qed.

Lemma LIMIT_permuted_elem {A} n (rows sorted out : list A) x :
  sorted ≡ₚ rows → LIMIT n sorted = inr out → x ∈ out → x ∈ rows.
Proof.
  intros Hp Hl Hin. rewrite <- Hp. by eapply LIMIT_subseteq.
Qed.

Lemma LIMIT_permuted_all {A} n (rows sorted : list A) :
  sorted ≡ₚ rows → Z.of_nat (length rows) ≤ n → n < 2 ^ 63 →
  LIMIT n sorted = inr sorted.
Proof. intros Hp Hn Hmax. apply LIMIT_all; [by rewrite Hp|done]. Qed.

(** The rows the pending query keeps, before ordering and limiting. *)
Lemma elem_of_pending_rows conn v scraped t :
  (v, scraped, t) ∈ WHERE (λ r, IS_NULL r.2) (videos_left_join_transcripts conn)
  ↔ youtube_videos conn !! v = Some scraped ∧ t = None ∧
    youtube_transcripts conn !! v = None.
Proof.
  unfold WHERE, videos_left_join_transcripts.
  rewrite list_elem_of_filter, list_elem_of_fmap. simpl. split.
  - intros [Hnull ([v' s'] & [= -> -> ->] & Hin)].
    apply elem_of_map_to_list in Hin. simpl in *.
    by destruct (youtube_transcripts conn !! v').
  - intros (Hv & -> & Ht). split; [done|].
    exists (v, scraped). simpl. rewrite Ht. split; [done|].
    by apply elem_of_map_to_list.
Qed.

Lemma pending_rows_NoDup conn :
  NoDup ((λ r : pystr * option Z * option transcript_row, r.1.1)
           <$> WHERE (λ r, IS_NULL r.2) (videos_left_join_transcripts conn)).
Proof.
  eapply sublist_NoDup; [|apply fmap_sublist, sublist_filter].
  unfold videos_left_join_transcripts.
  change (map ?f ?l) with (f <$> l). rewrite <- list_fmap_compose.
  apply (NoDup_fst_map_to_list (youtube_videos conn)).
Qed.

Lemma pending_rows_length conn :
  (length (WHERE (λ r, IS_NULL r.2) (videos_left_join_transcripts conn))
   ≤ size (youtube_videos conn))%nat.
Proof.
  unfold WHERE. etrans; [apply length_filter|].
  unfold videos_left_join_transcripts.
  by rewrite length_map, length_map_to_list.
Qed.

Lemma fetch_pending_video_ids_facts conn limit ids :
  fetch_pending_video_ids conn limit = inr ids →
  NoDup ids ∧
  Z.of_nat (length ids) ≤ limit ∧
  ∀ vid, vid ∈ ids →
    is_Some (youtube_videos conn !! vid) ∧
    youtube_transcripts conn !! vid = None.
Proof.
  unfold fetch_pending_video_ids.
  destruct (LIMIT _ _) as [e|rows] eqn:Hlim; [done|]. intros [= <-].
  split; [|split].
  - change (map ?f ?l) with (f <$> l).
    eapply LIMIT_permuted_NoDup;
      [apply ORDER_BY_DESC_perm|done|apply pending_rows_NoDup].
  - rewrite length_map. by eapply LIMIT_length.
  - intros vid Hin.
    apply list_elem_of_fmap in Hin as ([[v s] t] & -> & Hin).
    eapply LIMIT_permuted_elem in Hin;
      [|apply ORDER_BY_DESC_perm|done].
    apply elem_of_pending_rows in Hin as (Hv & _ & Ht). eauto.
Qed.

(** X1. What the pending query returns is a batch: no identifier twice,
    at most [limit] identifiers, each one catalogued and without any
    transcript record. *)
Theorem fetch_pending_video_ids_batch conn limit ids :
  fetch_pending_video_ids conn limit = inr ids →
  NoDup ids ∧
  Z.of_nat (length ids) ≤ limit ∧
  ∀ vid, vid ∈ ids →
    is_Some (youtube_videos conn !! vid) ∧
    youtube_transcripts conn !! vid = None.
Proof. apply fetch_pending_video_ids_facts. Qed.

Lemma fetch_pending_video_ids_batch_witness :
  fetch_pending_video_ids db_e2e 1 = inr [py "v1"] ∧
  NoDup [py "v1"] ∧
  Z.of_nat (length [py "v1"]) ≤ 1 ∧
  ∀ vid, vid ∈ [py "v1"] →
    is_Some (youtube_videos db_e2e !! vid) ∧
    youtube_transcripts db_e2e !! vid = None.
Proof.
  split; [reflexivity|].
  apply (fetch_pending_video_ids_batch db_e2e 1 [py "v1"]). reflexivity.
Defined.

(** X2. When the limit is at least the size of the catalog and within
    the range of a [bigint] (below [2^63]), the pending query returns
    every catalogued identifier that has no transcript record, and
    nothing else. *)
Theorem fetch_pending_video_ids_all conn limit :
  Z.of_nat (size (youtube_videos conn)) ≤ limit →
  limit < 2 ^ 63 →
  ∃ ids,
    fetch_pending_video_ids conn limit = inr ids ∧
    ∀ vid, vid ∈ ids ↔
      is_Some (youtube_videos conn !! vid) ∧
      youtube_transcripts conn !! vid = None.
Proof.
  intros Hsize Hmax. unfold fetch_pending_video_ids.
  rewrite (LIMIT_permuted_all limit
             (WHERE (λ r, IS_NULL r.2) (videos_left_join_transcripts conn))).
  - eexists. split; [done|]. intros vid.
    change (map ?f ?l) with (f <$> l). rewrite list_elem_of_fmap. split.
    + intros ([[v s] t] & -> & Hin).
      rewrite ORDER_BY_DESC_perm in Hin.
      apply elem_of_pending_rows in Hin as (Hv & _ & Ht). eauto.
    + intros [[s Hv] Ht]. exists (vid, s, None). split; [done|].
      rewrite ORDER_BY_DESC_perm.
      by apply elem_of_pending_rows.
  - apply ORDER_BY_DESC_perm.
  - pose proof (pending_rows_length conn). lia.
  - done.
Qed.

Lemma fetch_pending_video_ids_all_witness :
  Z.of_nat (size (youtube_videos db_e2e)) ≤ 10 ∧
  10 < 2 ^ 63 ∧
  ∃ ids,
    fetch_pending_video_ids db_e2e 10 = inr ids ∧
    ∀ vid, vid ∈ ids ↔
      is_Some (youtube_videos db_e2e !! vid) ∧
      youtube_transcripts db_e2e !! vid = None.
Proof.
  assert (Z.of_nat (size (youtube_videos db_e2e)) ≤ 10) as H
    by (vm_compute; discriminate).
  assert (10 < 2 ^ 63) as Hmax by (vm_compute; reflexivity).
  split; [exact H|]. split; [exact Hmax|].
  exact (fetch_pending_video_ids_all db_e2e 10 H Hmax).
Defined.

(** X3. The pending batch is ordered by discovery time, most recent
    first, identifiers without a discovery time before all others: of two
    returned identifiers the earlier one has a NULL [scraped_at] or one
    that is not older than the later one's. *)
Theorem fetch_pending_video_ids_order conn limit ids i j vi vj :
  fetch_pending_video_ids conn limit = inr ids →
  (i < j)%nat → ids !! i = Some vi → ids !! j = Some vj →
  ∃ si sj,
    youtube_videos conn !! vi = Some si ∧
    youtube_videos conn !! vj = Some sj ∧
    asc_nulls_last sj si.
Proof.
  unfold fetch_pending_video_ids.
  destruct (LIMIT _ _) as [e|rows] eqn:Hlim; [done|]. intros [= <-] Hij Hi Hj.
  change (map ?f ?l) with (f <$> l) in *.
  apply list_lookup_fmap_Some in Hi as ([[vi' si] ti] & -> & Hi).
  apply list_lookup_fmap_Some in Hj as ([[vj' sj] tj] & -> & Hj).
  exists si, sj. simpl.
  assert (∀ k v s t, rows !! k = Some (v, s, t) →
            youtube_videos conn !! v = Some s) as Hrow.
  { intros k v s t Hk. apply list_elem_of_lookup_2 in Hk.
    eapply LIMIT_permuted_elem in Hk; [|apply ORDER_BY_DESC_perm|done].
    by apply elem_of_pending_rows in Hk as (Hv & _). }
  split; [by eapply Hrow|]. split; [by eapply Hrow|].
  pose proof (LIMIT_sorted _ _ _ _
                (ORDER_BY_DESC_sorted (λ r, r.1.2) _) Hlim) as Hsorted.
  apply (StronglySorted_lookup_lt _ _ _ _ _ _ Hsorted Hij Hi Hj).
Qed.

Lemma fetch_pending_video_ids_order_witness :
  fetch_pending_video_ids db_e2e 10 = inr [py "v1"; py "v2"] ∧
  ∃ si sj,
    youtube_videos db_e2e !! py "v1" = Some si ∧
    youtube_videos db_e2e !! py "v2" = Some sj ∧
    asc_nulls_last sj si.
Proof.
  split; [reflexivity|].
  apply (fetch_pending_video_ids_order db_e2e 10 [py "v1"; py "v2"] 0 1
           (py "v1") (py "v2")); [reflexivity | lia | reflexivity..].
Defined.

(** The rows the retry-eligible query keeps, before ordering and
    limiting. *)
Lemma elem_of_failed_rows conn max_attempts v row :
  (v, row) ∈ WHERE (λ r, failed_condition max_attempts r.2)
               (map_to_list (youtube_transcripts conn))
  ↔ youtube_transcripts conn !! v = Some row ∧
    failed_condition max_attempts row = Some true.
Proof.
  unfold WHERE. rewrite list_elem_of_filter, elem_of_map_to_list. simpl. tauto.
Qed.

Lemma failed_rows_NoDup conn max_attempts :
  NoDup ((WHERE (λ r, failed_condition max_attempts r.2)
            (map_to_list (youtube_transcripts conn))).*1).
Proof.
  eapply sublist_NoDup; [|apply fmap_sublist, sublist_filter].
  apply NoDup_fst_map_to_list.
Qed.

Lemma failed_pairs_fst (rows : list (pystr * transcript_row)) :
  (map (λ r, (r.1, default 1 (COALESCE (t_fetch_attempts r.2) (Some 1))))
       rows).*1 = rows.*1.
Proof.
  change (map ?f ?l) with (f <$> l). rewrite <- list_fmap_compose.
  by apply list_fmap_ext.
Qed.

Lemma default_COALESCE_1 (a : option Z) :
  default 1 (COALESCE a (Some 1)) = default 1 a.
Proof. by destruct a. Qed.

(** X4. What the retry-eligible query returns: no identifier twice, at
    most [limit] pairs, and each pair is an identifier with a stored
    record together with that record's [fetch_attempts], read as 1 when
    NULL; the count is strictly below [max_attempts] and the record's
    [fetch_status] is not NULL. *)
Theorem fetch_failed_video_ids_batch conn limit max_attempts result :
  fetch_failed_video_ids conn limit max_attempts = inr result →
  NoDup result.*1 ∧
  Z.of_nat (length result) ≤ limit ∧
  ∀ vid n, (vid, n) ∈ result →
    ∃ row,
      youtube_transcripts conn !! vid = Some row ∧
      n = default 1 (t_fetch_attempts row) ∧
      n < max_attempts ∧
      is_Some (t_fetch_status row).
Proof.
  unfold fetch_failed_video_ids.
  destruct (LIMIT _ _) as [e|rows] eqn:Hlim; [done|]. intros [= <-].
  split; [|split].
  - rewrite failed_pairs_fst.
    eapply LIMIT_permuted_NoDup;
      [apply ORDER_BY_ASC_perm|done|apply failed_rows_NoDup].
  - rewrite length_map. by eapply LIMIT_length.
  - intros vid n Hin.
    apply list_elem_of_fmap in Hin as ([v row] & [= -> ->] & Hin).
    eapply LIMIT_permuted_elem in Hin; [|apply ORDER_BY_ASC_perm|done].
    apply elem_of_failed_rows in Hin as [Hrow Hcond].
    apply failed_condition_true in Hcond as (_ & (s & Hs & _) & Hlt).
    exists row. simpl. rewrite default_COALESCE_1. eauto.
Qed.

Lemma fetch_failed_video_ids_batch_witness :
  fetch_failed_video_ids (db_with (failed_row ERROR 2)) 25 3
  = inr [(py "v1", 2)] ∧
  ∃ row,
    youtube_transcripts (db_with (failed_row ERROR 2)) !! py "v1" = Some row ∧
    2 = default 1 (t_fetch_attempts row) ∧
    2 < 3 ∧
    is_Some (t_fetch_status row).
Proof.
  split; [reflexivity|].
  apply (proj2 (proj2 (fetch_failed_video_ids_batch
                         (db_with (failed_row ERROR 2)) 25 3 [(py "v1", 2)]
                         eq_refl)) (py "v1") 2).
  by apply list_elem_of_singleton.
Defined.

Lemma fetch_failed_video_ids_exact conn limit max_attempts :
  Z.of_nat (size (youtube_transcripts conn)) ≤ limit →
  limit < 2 ^ 63 →
  ∃ result,
    fetch_failed_video_ids conn limit max_attempts = inr result ∧
    ∀ vid, vid ∈ result.*1 ↔
      ∃ row,
        youtube_transcripts conn !! vid = Some row ∧
        failed_condition max_attempts row = Some true.
Proof.
  intros Hsize Hmax. unfold fetch_failed_video_ids.
  rewrite (LIMIT_permuted_all limit
             (WHERE (λ r, failed_condition max_attempts r.2)
                (map_to_list (youtube_transcripts conn)))).
  - eexists. split; [done|]. intros vid.
    rewrite failed_pairs_fst, list_elem_of_fmap. split.
    + intros ([v row] & -> & Hin). rewrite ORDER_BY_ASC_perm in Hin.
      apply elem_of_failed_rows in Hin as [Hrow Hcond]. by exists row.
    + intros (row & Hrow & Hcond). exists (vid, row). split; [done|].
      rewrite ORDER_BY_ASC_perm. by apply elem_of_failed_rows.
  - apply ORDER_BY_ASC_perm.
  - unfold WHERE.
    pose proof (length_filter
                  (λ r : pystr * transcript_row,
                     failed_condition max_attempts r.2 = Some true)
                  (map_to_list (youtube_transcripts conn))) as Hlen.
    rewrite length_map_to_list in Hlen. lia.
  - done.
Qed.

(** X5. When the limit is at least the number of transcript records and
    within the range of a [bigint] (below [2^63]), the retry-eligible
    query returns exactly the identifiers whose record has no
    [transcript_text], a non-NULL [fetch_status] other than 'disabled'
    and 'unavailable', and a [fetch_attempts] (1 when NULL) strictly
    below [max_attempts]. *)
Theorem fetch_failed_video_ids_all conn limit max_attempts :
  Z.of_nat (size (youtube_transcripts conn)) ≤ limit →
  limit < 2 ^ 63 →
  ∃ result,
    fetch_failed_video_ids conn limit max_attempts = inr result ∧
    ∀ vid, vid ∈ result.*1 ↔
      ∃ row,
        youtube_transcripts conn !! vid = Some row ∧
        t_transcript_text row = None ∧
        (∃ s, t_fetch_status row = Some s ∧
              s ≠ py "disabled" ∧ s ≠ py "unavailable") ∧
        default 1 (t_fetch_attempts row) < max_attempts.
Proof.
  intros Hsize Hmax.
  destruct (fetch_failed_video_ids_exact conn limit max_attempts Hsize Hmax)
    as (result & Hq & Hiff).
  exists result. split; [done|]. intros vid. rewrite Hiff.
  split; intros (row & Hrow & Hcond); exists row; split; try done;
    by apply failed_condition_true.
Qed.

Lemma fetch_failed_video_ids_all_witness :
  Z.of_nat (size (youtube_transcripts (db_with (failed_row ERROR 2)))) ≤ 25 ∧
  25 < 2 ^ 63 ∧
  ∃ result,
    fetch_failed_video_ids (db_with (failed_row ERROR 2)) 25 3 = inr result ∧
    ∀ vid, vid ∈ result.*1 ↔
      ∃ row,
        youtube_transcripts (db_with (failed_row ERROR 2)) !! vid = Some row ∧
        t_transcript_text row = None ∧
        (∃ s, t_fetch_status row = Some s ∧
              s ≠ py "disabled" ∧ s ≠ py "unavailable") ∧
        default 1 (t_fetch_attempts row) < 3.
Proof.
  assert (Z.of_nat (size (youtube_transcripts (db_with (failed_row ERROR 2))))
          ≤ 25) as H by (vm_compute; discriminate).
  assert (25 < 2 ^ 63) as Hmax by (vm_compute; reflexivity).
  split; [exact H|]. split; [exact Hmax|].
  exact (fetch_failed_video_ids_all (db_with (failed_row ERROR 2)) 25 3
           H Hmax).
Defined.

(** X6. The retry-eligible batch is ordered oldest write first, records
    without a write time after all others: of two returned identifiers the
    later one's [fetched_at] is NULL or not before the earlier one's. *)
Theorem fetch_failed_video_ids_order
    conn limit max_attempts result i j vi ni vj nj :
  fetch_failed_video_ids conn limit max_attempts = inr result →
  (i < j)%nat → result !! i = Some (vi, ni) → result !! j = Some (vj, nj) →
  ∃ ri rj,
    youtube_transcripts conn !! vi = Some ri ∧
    youtube_transcripts conn !! vj = Some rj ∧
    asc_nulls_last (t_fetched_at ri) (t_fetched_at rj).
Proof.
  unfold fetch_failed_video_ids.
  destruct (LIMIT _ _) as [e|rows] eqn:Hlim; [done|]. intros [= <-] Hij Hi Hj.
  change (map ?f ?l) with (f <$> l) in *.
  apply list_lookup_fmap_Some in Hi as ([vi' ri] & [= -> ->] & Hi).
  apply list_lookup_fmap_Some in Hj as ([vj' rj] & [= -> ->] & Hj).
  exists ri, rj. simpl.
  assert (∀ k v r, rows !! k = Some (v, r) →
            youtube_transcripts conn !! v = Some r) as Hrow.
  { intros k v r Hk. apply list_elem_of_lookup_2 in Hk.
    eapply LIMIT_permuted_elem in Hk; [|apply ORDER_BY_ASC_perm|done].
    by apply elem_of_failed_rows in Hk as [Hv _]. }
  split; [by eapply Hrow|]. split; [by eapply Hrow|].
  pose proof (LIMIT_sorted _ _ _ _
                (ORDER_BY_ASC_sorted (λ r, t_fetched_at r.2) _) Hlim)
    as Hsorted.
  apply (StronglySorted_lookup_lt _ _ _ _ _ _ Hsorted Hij Hi Hj).
Qed.

(** X7. The two selections are disjoint: an identifier the pending query
    returns is never among those the retry-eligible query returns on the
    same store. *)
Theorem pending_and_failed_disjoint
    conn limit1 limit2 max_attempts ids result vid :
  fetch_pending_video_ids conn limit1 = inr ids →
  fetch_failed_video_ids conn limit2 max_attempts = inr result →
  vid ∈ ids → vid ∉ result.*1.
Proof.
  intros Hp Hf Hin Hin'.
  apply (fetch_pending_video_ids_sound _ _ _ _ Hp) in Hin.
  destruct (fetch_failed_video_ids_sound _ _ _ _ _ Hf Hin')
    as (row & Hrow & _).
  congruence.
Qed.

Lemma fetch_failed_video_ids_order_witness :
  fetch_failed_video_ids db_mixed 25 3 = inr [(py "v2", 2); (py "v1", 1)] ∧
  ∃ ri rj,
    youtube_transcripts db_mixed !! py "v2" = Some ri ∧
    youtube_transcripts db_mixed !! py "v1" = Some rj ∧
    asc_nulls_last (t_fetched_at ri) (t_fetched_at rj).
Proof.
  split; [reflexivity|].
  apply (fetch_failed_video_ids_order db_mixed 25 3
           [(py "v2", 2); (py "v1", 1)] 0 1 (py "v2") 2 (py "v1") 1);
    [reflexivity | lia | reflexivity..].
Defined.

Lemma pending_and_failed_disjoint_witness :
  fetch_pending_video_ids db_mixed 25 = inr [py "v3"] ∧
  fetch_failed_video_ids db_mixed 25 3 = inr [(py "v2", 2); (py "v1", 1)] ∧
  py "v3" ∉ [(py "v2", 2); (py "v1", 1)].*1.
Proof.
  split; [reflexivity|]. split; [reflexivity|].
  apply (pending_and_failed_disjoint db_mixed 25 25 3 [py "v3"]
           [(py "v2", 2); (py "v1", 1)] (py "v3"));
    [reflexivity | reflexivity | by apply list_elem_of_singleton].
Defined.

(** ** More on the upsert *)

Lemma lstrip_head s c : head (lstrip s) = Some c → isspace c = false.
Proof.
  induction s as [|a s IH]; simpl; [done|].
  destruct (isspace a) eqn:Ha; [done|]. simpl. by intros [= <-].
Qed.

Lemma lstrip_suffix s : ∃ pre, s = pre ++ lstrip s.
Proof.
  induction s as [|a s [pre IH]]; simpl.
  - by exists [].
  - destruct (isspace a).
    + exists (a :: pre). simpl. by f_equal.
    + by exists [].
Qed.

Lemma lstrip_last s c : last (lstrip s) = Some c → last s = Some c.
Proof.
  intros Hl. destruct (lstrip_suffix s) as [pre Hs].
  rewrite Hs at 1. rewrite last_app, Hl. done.
Qed.

Lemma strip_stripped s : stripped (strip s).
Proof.
  unfold strip. split; intros c.
  - rewrite head_reverse. intros Hl%lstrip_last.
    rewrite last_reverse in Hl. by eapply lstrip_head.
  - rewrite last_reverse. apply lstrip_head.
Qed.

Lemma expect_strs_inl i items e :
  expect_strs i items = inl e →
  exn_class_of e = TypeError ∧ ∃ v, v ∈ items ∧ ∀ s, v ≠ PyStr s.
Proof.
  revert i. induction items as [|v items IH]; intros i; simpl; [done|].
  destruct v as [s|q|].
  - destruct (expect_strs (S i) items) as [e'|ss] eqn:He; [|done].
    intros [= <-]. destruct (IH _ He) as [Hc (v & Hv & Hns)].
    split; [done|]. exists v. split; [by right|done].
  - intros [= <-]. split; [done|]. exists (PyFloat q). split; [by left|done].
  - intros [= <-]. split; [done|]. exists PyNone. split; [by left|done].
Qed.

Lemma expect_strs_inr i items ss :
  expect_strs i items = inr ss → Forall (λ v, ∃ s, v = PyStr s) items.
Proof.
  revert i ss. induction items as [|v items IH]; intros i ss; simpl; [done|].
  destruct v as [s|q|]; [|done..].
  destruct (expect_strs (S i) items) as [e'|ss'] eqn:He; [done|].
  intros _. constructor; [by eexists|by eapply IH].
Qed.

(** X8. A write changes one record and nothing else: the catalog and every
    other identifier's record are as before, the written identifier has a
    record afterwards, and no record is ever removed. *)
Theorem upsert_transcript_frame c now vid lang tr st err ac c' :
  upsert_transcript c now vid lang tr st err ac = inr c' →
  youtube_videos c' = youtube_videos c ∧
  is_Some (youtube_transcripts c' !! vid) ∧
  (∀ other, other ≠ vid →
     youtube_transcripts c' !! other = youtube_transcripts c !! other) ∧
  dom (youtube_transcripts c') = {[vid]} ∪ dom (youtube_transcripts c).
Proof.
  intros (text & _ & Hv & Ht)%upsert_transcript_inr.
  split; [done|]. rewrite Ht.
  split; [by rewrite lookup_insert_on_conflict_eq|].
  split; [intros other Hne; by apply lookup_insert_on_conflict_ne|].
  unfold insert_on_conflict_update.
  destruct (youtube_transcripts c !! vid); by rewrite dom_insert_L.
Qed.

Lemma upsert_transcript_frame_witness :
  ∃ c',
    upsert_transcript db_mixed 400 (py "v3") None None ERROR
      (Some (py "boom")) 1 = inr c' ∧
    youtube_videos c' = youtube_videos db_mixed ∧
    is_Some (youtube_transcripts c' !! py "v3") ∧
    (∀ other, other ≠ py "v3" →
       youtube_transcripts c' !! other = youtube_transcripts db_mixed !! other) ∧
    dom (youtube_transcripts c')
    = {[py "v3"]} ∪ dom (youtube_transcripts db_mixed).
Proof.
  eexists. split; [reflexivity|].
  apply (upsert_transcript_frame db_mixed 400 (py "v3") None None ERROR
           (Some (py "boom")) 1).
  reflexivity.
Defined.

Lemma adapt_strings_NUL params s :
  Some s ∈ params → 0%N ∈ s →
  ∃ e, adapt_strings params = inl e ∧ exn_class_of e = ValueError.
Proof.
  induction params as [|[p|] rest IH]; intros Hin H0.
  - by apply elem_of_nil in Hin.
  - simpl. case_bool_decide; [by eexists|].
    apply elem_of_cons in Hin as [[= ->]|Hin]; [done|by apply IH].
  - simpl. apply elem_of_cons in Hin as [[=]|Hin]. by apply IH.
Qed.

(** X9. Two ways in which the write raises before any statement is sent.
    When the outcome has a segment that holds under ["text"] a value that
    is not a string, the join raises a [TypeError].  When every text is a
    string, so that the join returns, but the video identifier, the
    language, the joined and stripped text or the error message contains
    a NUL character, the driver refuses the parameter with a
    [ValueError]. *)
Theorem upsert_transcript_raises c now vid lang tr st err ac :
  ((∃ seg v, seg ∈ default [] tr ∧ seg !! py "text" = Some v ∧
             ∀ s, v ≠ PyStr s) →
   ∃ e, upsert_transcript c now vid lang tr st err ac = inl e ∧
        exn_class_of e = TypeError) ∧
  (∀ text s,
     flatten_text tr = inr text →
     Some s ∈ [Some vid; lang; text; err] → 0%N ∈ s →
     ∃ e, upsert_transcript c now vid lang tr st err ac = inl e ∧
          exn_class_of e = ValueError).
Proof.
  split.
  - intros (seg & v & Hseg & Hv & Hns).
    unfold upsert_transcript, flatten_text, str_join.
    assert (truthy tr = true) as ->.
    { destruct tr as [[|]|]; simpl in *; try done; by inversion Hseg. }
    destruct (expect_strs _ _) as [e'|ss] eqn:He.
    + exists e'. split; [done|]. by destruct (expect_strs_inl _ _ _ He).
    + exfalso. apply expect_strs_inr in He. rewrite Forall_forall in He.
      destruct (He (dict_get seg (py "text") (PyStr []))) as [s Hs].
      { by apply (list_elem_of_fmap_2
                    (λ seg, dict_get seg (py "text") (PyStr []))). }
      unfold dict_get in Hs. rewrite Hv in Hs. by eapply Hns.
  - intros text s Hflat Hin H0. unfold upsert_transcript. rewrite Hflat.
    destruct (adapt_strings_NUL
                [Some vid; lang; text; Some (value st); err] s)
      as (e & -> & Hc); [|done|by exists e].
    rewrite !elem_of_cons in Hin. rewrite !elem_of_cons. tauto.
Qed.

Lemma upsert_transcript_raises_witness :
  (∃ e,
     upsert_transcript db_empty 1 (py "v1") (Some (py "en"))
       (Some [seg_hi; seg_bad]) SUCCESS None 1 = inl e ∧
     exn_class_of e = TypeError) ∧
  (∃ e,
     upsert_transcript db_empty 1 (py "v1") (Some (py "en"))
       (Some [seg_hi; seg_nul]) SUCCESS None 1 = inl e ∧
     exn_class_of e = ValueError).
Proof.
  split.
  - apply (proj1 (upsert_transcript_raises db_empty 1 (py "v1")
                    (Some (py "en")) (Some [seg_hi; seg_bad]) SUCCESS
                    None 1)).
    exists seg_bad, (PyFloat 1). split; [|split].
    + apply elem_of_cons. right. by apply list_elem_of_singleton.
    + reflexivity.
    + intros s. discriminate.
  - apply (proj2 (upsert_transcript_raises db_empty 1 (py "v1")
                    (Some (py "en")) (Some [seg_hi; seg_nul]) SUCCESS
                    None 1)
             (Some (py "hi h" ++ [0%N] ++ py "i"))
             (py "hi h" ++ [0%N] ++ py "i")).
    + reflexivity.
    + apply elem_of_cons. right. apply elem_of_cons. right.
      apply elem_of_cons. by left.
    + vm_compute. apply list_elem_of_In. simpl. tauto.
Defined.

(** X10. Stored content is never erased: along any sequence of writes to
    an identifier, once its record has a [transcript_text] it has one
    after every later write, and the same holds of [transcript_json]. *)
Theorem stored_content_never_erased vid ws : ∀ c c' row,
  apply_writes vid c ws = inr c' →
  youtube_transcripts c !! vid = Some row →
  ∃ row',
    youtube_transcripts c' !! vid = Some row' ∧
    (is_Some (t_transcript_text row) → is_Some (t_transcript_text row')) ∧
    (is_Some (t_transcript_json row) → is_Some (t_transcript_json row')).
Proof.
  induction ws as [|w ws IH]; intros c c' row; simpl.
  - intros [= <-] Hrow. by exists row.
  - destruct (apply_write vid c w) as [e|c1] eqn:Hw; [done|].
    intros Hws Hrow.
    apply upsert_transcript_inr in Hw as (text & _ & _ & Ht).
    assert (∃ row1, youtube_transcripts c1 !! vid = Some row1 ∧
              (is_Some (t_transcript_text row) →
               is_Some (t_transcript_text row1)) ∧
              (is_Some (t_transcript_json row) →
               is_Some (t_transcript_json row1))) as (row1 & Hrow1 & H1 & H2).
    { rewrite Ht, lookup_insert_on_conflict_eq, Hrow. eexists. split; [done|].
      simpl. split; intros [x ->].
      - destruct text; simpl; eauto.
      - destruct (if truthy _ then _ else _); simpl; eauto. }
    destruct (IH c1 c' row1 Hws Hrow1) as (row' & Hrow' & H1' & H2').
    exists row'. split; [done|]. split; eauto.
Qed.

Lemma stored_content_never_erased_witness :
  ∃ c',
    apply_writes (py "v1") (db_with row_hi) writes_three = inr c' ∧
    ∃ row',
      youtube_transcripts c' !! py "v1" = Some row' ∧
      (is_Some (t_transcript_text row_hi) → is_Some (t_transcript_text row')) ∧
      (is_Some (t_transcript_json row_hi) → is_Some (t_transcript_json row')).
Proof.
  eexists. split; [reflexivity|].
  apply (stored_content_never_erased (py "v1") writes_three (db_with row_hi));
    reflexivity.
Defined.

(** X11. The text a write stores has no whitespace at either end: when the
    outcome has segments, the record's [transcript_text] afterwards is a
    string whose first and last characters, if any, are not whitespace. *)
Theorem upsert_transcript_text_stripped c now vid lang tr st err ac c' :
  upsert_transcript c now vid lang tr st err ac = inr c' →
  truthy tr = true →
  ∃ row text,
    youtube_transcripts c' !! vid = Some row ∧
    t_transcript_text row = Some text ∧
    stripped text.
Proof.
  intros (text & Hflat & _ & Ht)%upsert_transcript_inr Htr.
  unfold flatten_text in Hflat. rewrite Htr in Hflat.
  destruct (str_join _ _) as [e|joined]; [done|]. injection Hflat as <-.
  rewrite Ht, lookup_insert_on_conflict_eq.
  destruct (youtube_transcripts c !! vid); do 2 eexists;
    (split; [done|]); simpl; (split; [done|]); apply strip_stripped.
Qed.

Lemma upsert_transcript_text_stripped_witness :
  ∃ c',
    upsert_transcript db_empty 1 (py "v1") (Some (py "en"))
      (Some [seg_padded; seg_hi]) SUCCESS None 1 = inr c' ∧
    ∃ row,
      youtube_transcripts c' !! py "v1" = Some row ∧
      t_transcript_text row = Some (py "hi there  hi") ∧
      stripped (py "hi there  hi").
Proof.
  eexists. split; [reflexivity|].
  destruct (upsert_transcript_text_stripped db_empty 1 (py "v1")
              (Some (py "en")) (Some [seg_padded; seg_hi]) SUCCESS None 1
              _ eq_refl eq_refl) as (row & text & Hrow & Htext & Hs).
  exists row. split; [exact Hrow|].
  vm_compute in Hrow. injection Hrow as <-.
  vm_compute in Htext. injection Htext as <-.
  split; [reflexivity|exact Hs].
Defined.

Lemma value_not_excluded st :
  (value st ≠ py "disabled" ∧ value st ≠ py "unavailable") ↔
  (st ≠ DISABLED ∧ st ≠ UNAVAILABLE).
Proof. destruct st; split; intros [H1 H2]; split; done. Qed.

(** X12. An identifier that has been written is never pending again: after
    any write through [upsert_transcript] the pending query does not
    return it. *)
Theorem written_never_pending c now vid lang tr st err ac c' limit ids :
  upsert_transcript c now vid lang tr st err ac = inr c' →
  fetch_pending_video_ids c' limit = inr ids →
  vid ∉ ids.
Proof.
  intros (text & _ & _ & Ht)%upsert_transcript_inr Hp Hin.
  apply (fetch_pending_video_ids_sound _ _ _ _ Hp) in Hin.
  by rewrite Ht, lookup_insert_on_conflict_eq in Hin.
Qed.

Lemma written_never_pending_witness :
  ∃ c',
    upsert_transcript db_e2e 1 (py "v1") None None ERROR (Some (py "boom")) 1
    = inr c' ∧
    fetch_pending_video_ids c' 10 = inr [py "v2"] ∧
    py "v1" ∉ [py "v2"].
Proof.
  eexists. split; [reflexivity|]. split; [reflexivity|].
  eapply (written_never_pending db_e2e 1 (py "v1") None None ERROR
            (Some (py "boom")) 1 _ 10 [py "v2"]); reflexivity.
Defined.

(** X13. The first write for an identifier, when its outcome has no
    segments, leaves a record that the retry-eligible query (with a limit
    of at least the number of records) returns exactly when the status
    written is neither DISABLED nor UNAVAILABLE and the attempt count
    passed is below [max_attempts].  This includes a SUCCESS outcome whose
    segment list is empty. *)
Theorem contentless_first_write_retry_eligible
    c now vid lang tr st err ac c' limit max_attempts result :
  youtube_transcripts c !! vid = None →
  truthy tr = false →
  upsert_transcript c now vid lang tr st err ac = inr c' →
  Z.of_nat (size (youtube_transcripts c')) ≤ limit →
  fetch_failed_video_ids c' limit max_attempts = inr result →
  (vid ∈ result.*1 ↔ st ≠ DISABLED ∧ st ≠ UNAVAILABLE ∧ ac < max_attempts).
Proof.
  intros Hnone Htr (text & Hflat & _ & Ht)%upsert_transcript_inr Hsize Hq.
  rewrite (flatten_text_falsy _ Htr) in Hflat. injection Hflat as <-.
  assert (limit < 2 ^ 63) as Hmax.
  { unfold fetch_failed_video_ids in Hq.
    destruct (LIMIT limit _) as [e|rows] eqn:Hl; [done|].
    by apply LIMIT_in_range in Hl as [_ ?]. }
  destruct (fetch_failed_video_ids_exact c' limit max_attempts Hsize Hmax)
    as (result' & Hq' & Hiff).
  assert (result' = result) as -> by congruence.
  rewrite Hiff, Ht, lookup_insert_on_conflict_eq, Hnone. split.
  - intros (row & [= <-] & Hcond).
    apply failed_condition_true in Hcond as (_ & (s & [= <-] & Hs) & Hlt).
    simpl in *. apply value_not_excluded in Hs. tauto.
  - intros (Hd & Hu & Hlt). eexists. split; [done|].
    apply failed_condition_true. simpl. split; [done|]. split; [|done].
    eexists. split; [done|]. by apply value_not_excluded.
Qed.

Lemma contentless_first_write_retry_eligible_witness :
  youtube_transcripts db_empty !! py "v1" = None ∧
  truthy (Some (@nil segment)) = false ∧
  ∃ c',
    upsert_transcript db_empty 1 (py "v1") (Some (py "en")) (Some []) SUCCESS
      None 1 = inr c' ∧
    Z.of_nat (size (youtube_transcripts c')) ≤ 25 ∧
    fetch_failed_video_ids c' 25 3 = inr [(py "v1", 1)] ∧
    (py "v1" ∈ [(py "v1", 1)].*1 ↔
     SUCCESS ≠ DISABLED ∧ SUCCESS ≠ UNAVAILABLE ∧ 1 < 3).
Proof.
  split; [reflexivity|]. split; [reflexivity|].
  eexists. split; [reflexivity|].
  assert (Z.of_nat
            (size (youtube_transcripts
                     {| youtube_videos := youtube_videos db_empty;
                        youtube_transcripts :=
                          insert_on_conflict_update 1 (py "v1")
                            {| t_language := Some (py "en");
                               t_transcript_text := None;
                               t_transcript_json := None;
                               t_fetch_status := Some (value SUCCESS);
                               t_error_message := None;
                               t_fetch_attempts := Some 1;
                               t_fetched_at := fetched_at_default 1 |}
                            (youtube_transcripts db_empty) |})) ≤ 25) as Hsize
    by (vm_compute; discriminate).
  split; [exact Hsize|]. split; [reflexivity|].
  eapply (contentless_first_write_retry_eligible db_empty 1 (py "v1")
            (Some (py "en")) (Some []) SUCCESS None 1 _ 25 3 [(py "v1", 1)]);
    [reflexivity | reflexivity | reflexivity | exact Hsize | reflexivity].
Defined.

(** ** More on the retry/backoff loop *)

(** X14. The loop is bounded and talks about one video only: whatever the
    provider does, a call of [fetch_transcript_with_retry] makes at most
    [max_retries] provider calls (none when [max_retries] is negative),
    only appends to the effect log, and every provider call it makes is
    for the given video with the given languages. *)
Theorem fetch_calls_bounded api vid langs max_retries rd ss w :
  let out := fetch_transcript_with_retry api vid langs max_retries rd ss w in
  (calls out.2 ≤ calls w + Z.to_nat max_retries)%nat ∧
  ∃ evs, log out.2 = log w ++ evs ∧ Forall (own_event vid langs) evs.
Proof.
  destruct (retry_loop_invariant api vid langs max_retries rd ss
              (seqZ 0 max_retries) None w)
    as (Hc & Hlog & _).
  rewrite length_seqZ in Hc. by split.
Qed.

(** X15. Every result of [fetch_transcript_with_retry] is for the video it
    was asked about and is well formed: a SUCCESS carries a language and a
    transcript and no error message, every other status carries an error
    message and neither language nor transcript. *)
Theorem fetch_result_shape api vid langs max_retries rd ss w res :
  (fetch_transcript_with_retry api vid langs max_retries rd ss w).1 = inr res →
  FetchResult.video_id res = vid ∧ result_shape res.
Proof.
  intros Hres.
  destruct (retry_loop_invariant api vid langs max_retries rd ss
              (seqZ 0 max_retries) None w)
    as (_ & _ & Hshape & _).
  destruct (Hshape res Hres) as (? & ? & _). by split.
Qed.

Lemma fetch_result_shape_witness :
  (fetch_transcript_with_retry api_flaky (py "v1") [py "en"] 3
     (Finite 2) (Finite 1) w0).1
  = inr (success (py "v1") (py "en") [seg_hi]) ∧
  FetchResult.video_id (success (py "v1") (py "en") [seg_hi]) = py "v1" ∧
  result_shape (success (py "v1") (py "en") [seg_hi]).
Proof.
  split; [reflexivity|].
  apply (fetch_result_shape api_flaky (py "v1") [py "en"] 3
           (Finite 2) (Finite 1) w0).
  reflexivity.
Defined.

(** X16. Provider errors never escape, and neither does an error of the
    pacing sleep: an exception leaves the call only from the backoff of
    an attempt that is not the last, raised by the product
    [retry_delay * (2 ** attempt)] or by [time.sleep] of it.  With a
    [retry_delay] whose backoff delays are in range (not negative, at
    most 1025 attempts, the longest delay accepted by the clock) none
    does, and the call returns a [FetchResult] whatever the provider
    raises and whatever the pacing delay is. *)
Theorem fetch_raises_only_from_backoff api vid langs max_retries rd ss w :
  (∀ q, rd = Finite q → backoffs_in_range q (max_retries - 1) →
     ∃ res,
       (fetch_transcript_with_retry api vid langs max_retries rd ss w).1
       = inr res) ∧
  (∀ e,
     (fetch_transcript_with_retry api vid langs max_retries rd ss w).1 = inl e →
     backoff_raises max_retries rd e).
Proof.
  assert (∀ e,
     (fetch_transcript_with_retry api vid langs max_retries rd ss w).1 = inl e →
     backoff_raises max_retries rd e) as Hexn.
  { intros e He.
    destruct (retry_loop_invariant api vid langs max_retries rd ss
                (seqZ 0 max_retries) None w)
      as (_ & _ & _ & Hexn).
    destruct (Hexn e He) as (a & Ha & Hlt & Hraise).
    apply elem_of_seqZ in Ha. exists a. split; [lia|done]. }
  split; [|done]. intros q -> Hrange.
  destruct (fetch_transcript_with_retry _ _ _ _ _ _ _).1 as [e|res] eqn:Hout;
    [|by eexists].
  destruct (Hexn e eq_refl) as (a & Ha & Hraise).
  destruct (backoff_sleep_accepted q (max_retries - 1) a Hrange Ha)
    as [Hb Hs].
  destruct Hraise as [?|(d & ? & ?)]; congruence.
Qed.

Lemma fetch_raises_only_from_backoff_witness :
  backoffs_in_range 2 (3 - 1) ∧
  (∃ res,
     (fetch_transcript_with_retry (api_always OtherException) (py "v1")
        [py "en"] 3 (Finite 2) (Finite 1) w0).1 = inr res) ∧
  (fetch_transcript_with_retry (api_always OtherException) (py "v1")
     [py "en"] 3 (Finite (-1)) (Finite 1) w0).1
  = inl (Raise ValueError (py "sleep length must be non-negative")) ∧
  backoff_raises 3 (Finite (-1))
    (Raise ValueError (py "sleep length must be non-negative")).
Proof.
  assert (backoffs_in_range 2 (3 - 1)) as H2.
  { split; [|split]; [apply Qle_bool_iff; reflexivity | lia
                     | apply Qle_bool_iff; reflexivity]. }
  split; [exact H2|].
  split.
  - exact (proj1 (fetch_raises_only_from_backoff (api_always OtherException)
                    (py "v1") [py "en"] 3 (Finite 2) (Finite 1) w0)
             2%Q eq_refl H2).
  - split; [reflexivity|].
    exact (proj2 (fetch_raises_only_from_backoff
                    (api_always OtherException) (py "v1") [py "en"]
                    3 (Finite (-1)) (Finite 1) w0)
             (Raise ValueError (py "sleep length must be non-negative"))
             eq_refl).
Defined.

(** X17. With a negative pacing delay no call ever succeeds: the sleep
    after a fetched transcript raises inside the [try], the generic
    [except] clause takes it for a provider error, and the result, if
    any, has a status other than SUCCESS. *)
Theorem negative_pacing_never_success api vid langs max_retries rd ss w res :
  float_negative ss →
  (fetch_transcript_with_retry api vid langs max_retries rd ss w).1 = inr res →
  FetchResult.status res ≠ SUCCESS.
Proof.
  intros Hss Hres.
  destruct (retry_loop_invariant api vid langs max_retries rd ss
              (seqZ 0 max_retries) None w)
    as (_ & _ & Hshape & _).
  destruct (Hshape res Hres) as (_ & _ & Hneg). apply Hneg.
  intros q. by apply sleep_outcome_negative.
Qed.

Lemma negative_pacing_never_success_witness :
  float_negative (Finite (-1)) ∧
  (fetch_transcript_with_retry api_ok (py "v1") [py "en"] 1
     (Finite 2) (Finite (-1)) w0).1
  = inr (failure (py "v1") ERROR (py "sleep length must be non-negative")) ∧
  FetchResult.status
    (failure (py "v1") ERROR (py "sleep length must be non-negative"))
  ≠ SUCCESS.
Proof.
  assert (float_negative (Finite (-1))) as Hneg by reflexivity.
  split; [exact Hneg|]. split; [reflexivity|].
  apply (negative_pacing_never_success api_ok (py "v1") [py "en"] 1
           (Finite 2) (Finite (-1)) w0);
    [exact Hneg | reflexivity].
Defined.

(** X18. Recovery within the call.  Take a [retry_delay] whose first [k]
    backoff delays are in range (not negative, [k] at most 1024, the
    longest, [retry_delay * 2^(k-1)], accepted by the clock) and a pacing
    delay in range (not negative, accepted by the clock).  If the first
    [k] attempts fail with a rate-limit or other unclassified exception,
    [k] is below [max_retries], and attempt [k] fetches a transcript,
    then the call returns SUCCESS with that transcript and language after
    exactly [k + 1] provider calls, having slept [retry_delay * 2^i]
    after each failed attempt [i] and the pacing delay after the
    fetch. *)
Theorem fetch_recovers_after_transient
    api vid langs max_retries q s w k lc raw :
  backoffs_in_range q (Z.of_nat k) →
  delay_in_range s →
  Z.of_nat k < max_retries →
  (∀ i, (i < k)%nat →
     ∃ e, api (calls w + i)%nat = Raises e ∧
          structural_status (exn_class_of e) = None) →
  api (calls w + k)%nat = Fetched lc raw →
  fetch_transcript_with_retry api vid langs max_retries (Finite q) (Finite s) w
  = (inr {| FetchResult.video_id := vid;
            FetchResult.status := SUCCESS;
            FetchResult.language := Some lc;
            FetchResult.transcript := Some raw;
            FetchResult.error_message := None |},
     {| calls := calls w + k + 1;
        log := log w
               ++ backoff_log api vid langs q (calls w)
                    (Z.to_nat max_retries) (seq 0 k)
               ++ [EvFetch vid langs (Fetched lc raw); EvSleep s] |}).
Proof.
  intros Hrange Hs Hk Htr Hapi.
  destruct (fetch_after_transient api vid langs max_retries q (Finite s) w k)
    as (le' & rest & ->); [done..|].
  rewrite (retry_loop_cons api vid langs max_retries (Finite q) (Finite s)).
  match goal with |- context [try_fetch _ _ _ _ ?w1] =>
    destruct (try_fetch_cases api vid langs (Finite s) w1)
      as [(lc' & raw' & s' & Hapi' & Hs' & ->)|(e & _ & Hraised)];
      cbn [calls log] in *
  end.
  - assert (lc' = lc ∧ raw' = raw) as [-> ->] by (split; congruence).
    rewrite (sleep_outcome_in_range s Hs) in Hs'. injection Hs' as <-.
    unfold success. f_equal. f_equal; [lia|by rewrite <- app_assoc].
  - rewrite (sleep_outcome_in_range s Hs) in Hraised.
    destruct Hraised as [?|(lc' & raw' & _ & ?)]; congruence.
Qed.

Lemma fetch_recovers_after_transient_witness :
  backoffs_in_range 2 (Z.of_nat 2) ∧ delay_in_range 1 ∧ Z.of_nat 2 < 3 ∧
  fetch_transcript_with_retry api_flaky (py "v1") [py "en"] 3
    (Finite 2) (Finite 1) w0
  = (inr (success (py "v1") (py "en") [seg_hi]),
     {| calls := 3;
        log :=
          [EvFetch (py "v1") [py "en"]
             (Raises (Raise TooManyRequests (py "slow down")));
           EvSleep (backoff_seconds 2 0);
           EvFetch (py "v1") [py "en"]
             (Raises (Raise TooManyRequests (py "slow down")));
           EvSleep (backoff_seconds 2 1);
           EvFetch (py "v1") [py "en"] (Fetched (py "en") [seg_hi]);
           EvSleep 1] |}).
Proof.
  assert (backoffs_in_range 2 (Z.of_nat 2)) as H2.
  { split; [|split]; [apply Qle_bool_iff; reflexivity | simpl; lia
                     | apply Qle_bool_iff; reflexivity]. }
  assert (delay_in_range 1) as H1.
  { split; apply Qle_bool_iff; reflexivity. }
  assert (Z.of_nat 2 < 3) as Hk by lia.
  split; [exact H2|]. split; [exact H1|]. split; [exact Hk|].
  apply (fetch_recovers_after_transient api_flaky (py "v1") [py "en"] 3 2 1 w0
           2 (py "en") [seg_hi] H2 H1 Hk).
  - intros [|[|i]] Hi; [eexists; split; reflexivity..|lia].
  - reflexivity.
Defined.

(** X19. A structural condition ends the call even after retries.  Take a
    [retry_delay] whose first [k] backoff delays are in range (not
    negative, [k] at most 1024, the longest, [retry_delay * 2^(k-1)],
    accepted by the clock).  If the first [k] attempts fail transiently,
    [k] is below [max_retries], and attempt [k] raises the
    transcripts-disabled, a no-transcript or the video-unavailable
    condition, the call returns DISABLED, NOT_FOUND or UNAVAILABLE with
    that exception's text after exactly [k + 1] provider calls, having
    slept [retry_delay * 2^i] after each failed attempt [i], with no
    sleep after the last call. *)
Theorem fetch_structural_after_transient
    api vid langs max_retries q ss w k e st :
  backoffs_in_range q (Z.of_nat k) →
  Z.of_nat k < max_retries →
  (∀ i, (i < k)%nat →
     ∃ e', api (calls w + i)%nat = Raises e' ∧
           structural_status (exn_class_of e') = None) →
  api (calls w + k)%nat = Raises e →
  structural_status (exn_class_of e) = Some st →
  fetch_transcript_with_retry api vid langs max_retries (Finite q) ss w
  = (inr {| FetchResult.video_id := vid;
            FetchResult.status := st;
            FetchResult.language := None;
            FetchResult.transcript := None;
            FetchResult.error_message := Some (exn_str e) |},
     {| calls := calls w + k + 1;
        log := log w
               ++ backoff_log api vid langs q (calls w)
                    (Z.to_nat max_retries) (seq 0 k)
               ++ [EvFetch vid langs (Raises e)] |}).
Proof.
  intros Hrange Hk Htr Hapi Hst.
  destruct (fetch_after_transient api vid langs max_retries q ss w k)
    as (le' & rest & ->); [done..|].
  rewrite (retry_loop_cons api vid langs max_retries (Finite q) ss).
  match goal with |- context [try_fetch _ _ _ _ ?w1] =>
    destruct (try_fetch_cases api vid langs ss w1)
      as [(lc' & raw' & s' & Hapi' & _)|(e' & -> & Hraised)];
      cbn [calls log] in *; [congruence|]
  end.
  assert (e' = e) as ->.
  { destruct Hraised as [?|(lc' & raw' & ? & _)]; congruence. }
  match goal with |- on_exception ?v ?m ?d ?a ?kk e ?w1 = _ =>
    destruct (on_exception_cases v m d a kk e w1)
      as [(st' & Hst' & ->)|[(? & _)|[(? & _)|(? & _)]]]; try congruence
  end.
  assert (st' = st) as -> by congruence.
  unfold failure. f_equal. f_equal; [lia|].
  by rewrite Hapi, <- app_assoc.
Qed.

Lemma fetch_structural_after_transient_witness :
  backoffs_in_range 2 (Z.of_nat 1) ∧ Z.of_nat 1 < 3 ∧
  fetch_transcript_with_retry api_then_gone (py "v1") [py "en"] 3
    (Finite 2) (Finite 1) w0
  = (inr (failure (py "v1") UNAVAILABLE (py "gone")),
     {| calls := 2;
        log :=
          [EvFetch (py "v1") [py "en"]
             (Raises (Raise TooManyRequests (py "slow down")));
           EvSleep (backoff_seconds 2 0);
           EvFetch (py "v1") [py "en"]
             (Raises (Raise VideoUnavailable (py "gone")))] |}).
Proof.
  assert (backoffs_in_range 2 (Z.of_nat 1)) as H2.
  { split; [|split]; [apply Qle_bool_iff; reflexivity | simpl; lia
                     | apply Qle_bool_iff; reflexivity]. }
  assert (Z.of_nat 1 < 3) as Hk by lia.
  split; [exact H2|]. split; [exact Hk|].
  apply (fetch_structural_after_transient api_then_gone (py "v1") [py "en"]
           3 2 (Finite 1) w0 1 (Raise VideoUnavailable (py "gone"))
           UNAVAILABLE H2 Hk).
  - intros [|i] Hi; [eexists; split; reflexivity|lia].
  - reflexivity.
  - reflexivity.
Defined.

(** ** The orchestrator *)

Lemma fetch_video_id api vid langs max_retries rd ss w res w' :
  fetch_transcript_with_retry api vid langs max_retries rd ss w = (inr res, w') →
  FetchResult.video_id res = vid.
Proof.
  intros Hf.
  destruct (retry_loop_invariant api vid langs max_retries rd ss
              (seqZ 0 max_retries) None w)
    as (_ & _ & Hshape & _).
  unfold fetch_transcript_with_retry in Hf. rewrite Hf in Hshape.
  by destruct (Hshape res eq_refl).
Qed.

Lemma fetch_effects api vid langs max_retries rd ss w out w' :
  fetch_transcript_with_retry api vid langs max_retries rd ss w = (out, w') →
  (calls w' ≤ calls w + Z.to_nat max_retries)%nat ∧
  ∃ evs, log w' = log w ++ evs ∧ Forall (own_event vid langs) evs.
Proof.
  intros Hf.
  destruct (retry_loop_invariant api vid langs max_retries rd ss
              (seqZ 0 max_retries) None w)
    as (Hc & Hlog & _).
  unfold fetch_transcript_with_retry in Hf. rewrite Hf in Hc, Hlog.
  rewrite length_seqZ in Hc. by split.
Qed.

(** What a run of the loop of [main] does to the store. *)
Lemma process_store env api clock ids : ∀ i st out r,
  process env api clock i ids st = (out, r) →
  NoDup ids →
  (∀ v, v ∈ ids → youtube_transcripts (conn st) !! v = None) →
  youtube_videos (conn r) = youtube_videos (conn st) ∧
  (∀ v, v ∉ ids →
     youtube_transcripts (conn r) !! v = youtube_transcripts (conn st) !! v) ∧
  (∀ v row, v ∈ ids → youtube_transcripts (conn r) !! v = Some row →
     t_fetch_attempts row = Some 1 ∧ is_Some (t_fetch_status row)) ∧
  (out = inr () → ∀ v, v ∈ ids → is_Some (youtube_transcripts (conn r) !! v)).
Proof.
  induction ids as [|vid rest IH]; intros i st out r Hp Hnd Hnone;
    simpl in Hp.
  - injection Hp as <- <-. split; [done|]. split; [done|]. split.
    + intros v row Hv. by apply elem_of_nil in Hv.
    + intros _ v Hv. by apply elem_of_nil in Hv.
  - apply NoDup_cons in Hnd as [Hvid Hnd].
    assert (∀ v row, v ∈ vid :: rest →
              youtube_transcripts (conn st) !! v = Some row →
              t_fetch_attempts row = Some 1 ∧ is_Some (t_fetch_status row))
      as Hstay.
    { intros v row Hv Hrow. rewrite Hnone in Hrow; done. }
    destruct (fetch_transcript_with_retry _ _ _ _ _ _ _)
      as [[e|res] w] eqn:Hf.
    { injection Hp as <- <-. simpl.
      split; [done|]. split; [done|]. split; [exact Hstay|done]. }
    apply fetch_video_id in Hf as Hres.
    destruct (upsert_transcript _ _ _ _ _ _ _ _) as [e|conn'] eqn:Hu.
    { injection Hp as <- <-. simpl.
      split; [done|]. split; [done|]. split; [exact Hstay|done]. }
    apply upsert_transcript_inr in Hu as (text & _ & Hv' & Ht').
    rewrite Hres in Ht'.
    apply IH in Hp as (Hcat & Hother & Hnew & Hdone); simpl in *; [|done|].
    2: { intros v Hv. rewrite Ht', lookup_insert_on_conflict_ne.
         - apply Hnone. by right.
         - intros ->. done. }
    assert (youtube_transcripts (conn r) !! vid
            = Some {| t_language := FetchResult.language res;
                      t_transcript_text := text;
                      t_transcript_json :=
                        if truthy (FetchResult.transcript res)
                        then FetchResult.transcript res else None;
                      t_fetch_status := Some (value (FetchResult.status res));
                      t_error_message := FetchResult.error_message res;
                      t_fetch_attempts := Some default_attempt_count;
                      t_fetched_at := fetched_at_default (clock i) |}) as Hrow.
    { rewrite (Hother vid Hvid), Ht', lookup_insert_on_conflict_eq.
      rewrite (Hnone vid); [done|by left]. }
    split; [congruence|]. split; [|split].
    + intros v Hv. apply not_elem_of_cons in Hv as [Hne Hv].
      rewrite (Hother v Hv), Ht'. by apply lookup_insert_on_conflict_ne.
    + intros v row Hv Hr. apply elem_of_cons in Hv as [->|Hv].
      * rewrite Hrow in Hr. injection Hr as <-. simpl. eauto.
      * by apply (Hnew v row).
    + intros Hout v Hv. apply elem_of_cons in Hv as [->|Hv].
      * by rewrite Hrow.
      * by apply Hdone.
Qed.

(** What a run of the loop of [main] does to the provider and the clock. *)
Lemma process_effects env api clock ids : ∀ i st out r,
  process env api clock i ids st = (out, r) →
  (calls (effects r)
   ≤ calls (effects st) + length ids * Z.to_nat (TRANSCRIPT_MAX_RETRIES env))%nat ∧
  ∃ evs,
    log (effects r) = log (effects st) ++ evs ∧
    Forall (batch_event ids (TRANSCRIPT_LANGUAGES env)) evs.
Proof.
  induction ids as [|vid rest IH]; intros i st out r Hp; simpl in Hp.
  - injection Hp as <- <-. split; [simpl; lia|].
    exists []. by rewrite app_nil_r.
  - assert (∀ evs, Forall (own_event vid (TRANSCRIPT_LANGUAGES env)) evs →
              Forall (batch_event (vid :: rest) (TRANSCRIPT_LANGUAGES env)) evs)
      as Hown.
    { intros evs Hevs. eapply Forall_impl; [done|].
      intros [v l resp|d]; simpl; [|done].
      intros [-> ->]. split; [by left|done]. }
    destruct (fetch_transcript_with_retry _ _ _ _ _ _ _)
      as [[e|res] w] eqn:Hf;
      apply fetch_effects in Hf as (Hc & evs & Hlog & Hevs).
    { injection Hp as <- <-. simpl. split; [lia|]. exists evs. auto. }
    destruct (upsert_transcript _ _ _ _ _ _ _ _) as [e|conn'] eqn:Hu.
    { injection Hp as <- <-. simpl. split; [lia|]. exists evs. auto. }
    apply IH in Hp as (Hc' & evs' & Hlog' & Hevs'). simpl in *.
    split; [lia|]. exists (evs ++ evs').
    split; [by rewrite Hlog', Hlog, app_assoc|].
    apply Forall_app. split; [auto|].
    eapply Forall_impl; [done|]. intros [v l resp|d]; simpl; [|done].
    intros [Hv ->]. split; [by right|done].
Qed.

Lemma stats_total_incr (m : gmap pystr Z) s :
  stats_total (<[value s := default 0 (m !! value s) + 1]> m)
  = stats_total m + 1.
Proof.
  unfold stats_total. simpl. rewrite !lookup_insert.
  destruct s; simpl;
    repeat (case_decide as H;
            [try (exfalso; vm_compute in H; discriminate H)
            |try (exfalso; by apply H)]);
    simpl; lia.
Qed.

(** What a run of the loop of [main] does to the counters. *)
Lemma process_stats env api clock ids : ∀ i st out r,
  process env api clock i ids st = (out, r) →
  stats_total (stats r) ≤ stats_total (stats st) + Z.of_nat (length ids) ∧
  (out = inr () →
   stats_total (stats r) = stats_total (stats st) + Z.of_nat (length ids)).
Proof.
  induction ids as [|vid rest IH]; intros i st out r Hp; simpl in Hp.
  - injection Hp as <- <-. simpl. lia.
  - destruct (fetch_transcript_with_retry _ _ _ _ _ _ _) as [[e|res] w].
    { injection Hp as <- <-. simpl. split; [lia|done]. }
    destruct (upsert_transcript _ _ _ _ _ _ _ _) as [e|conn'].
    { injection Hp as <- <-. simpl. rewrite stats_total_incr.
      split; [lia|done]. }
    apply IH in Hp as [Hle Heq]. simpl in *.
    rewrite stats_total_incr in Hle, Heq. split; [lia|].
    intros Hout. rewrite (Heq Hout). lia.
Qed.

Lemma main_unfold env api clock db0 ids :
  fetch_pending_video_ids db0 (TRANSCRIPT_BATCH_LIMIT env) = inr ids →
  main env api clock db0
  = process env api clock 1 ids
      {| conn := db0; stats := stats_init;
         effects := {| calls := 0; log := [] |} |}.
Proof. unfold main. intros ->. by destruct ids. Qed.

(** X20. A run only ever asks the provider about pending videos: every
    provider call of [main] is for a catalogued video that had no
    transcript record when the run started, with the configured
    languages, and the run makes at most batch limit times [max_retries]
    provider calls.  This holds of aborted runs too. *)
Theorem main_only_attempts_pending env api clock db0 :
  let out := main env api clock db0 in
  (∀ v l resp, EvFetch v l resp ∈ log (effects out.2) →
     is_Some (youtube_videos db0 !! v) ∧
     youtube_transcripts db0 !! v = None ∧
     l = TRANSCRIPT_LANGUAGES env) ∧
  (calls (effects out.2)
   ≤ Z.to_nat (TRANSCRIPT_BATCH_LIMIT env)
     * Z.to_nat (TRANSCRIPT_MAX_RETRIES env))%nat.
Proof.
  cbv zeta.
  destruct (fetch_pending_video_ids db0 (TRANSCRIPT_BATCH_LIMIT env))
    as [e|ids] eqn:Hq.
  { unfold main. rewrite Hq. simpl. split; [|lia].
    intros v l resp Hin. by apply elem_of_nil in Hin. }
  rewrite (main_unfold _ _ _ _ _ Hq).
  destruct (process _ _ _ _ _ _) as [out r] eqn:Hp.
  apply process_effects in Hp as (Hc & evs & Hlog & Hevs). simpl in *.
  destruct (fetch_pending_video_ids_facts _ _ _ Hq) as (_ & Hlen & Hpend).
  split.
  - intros v l resp Hin. rewrite Hlog in Hin.
    rewrite Forall_forall in Hevs. apply Hevs in Hin as [Hv ->].
    destruct (Hpend v Hv). done.
  - etrans; [done|]. apply Nat.mul_le_mono_r. lia.
Qed.

(** X21. A run never touches what was there: whatever happens, the
    catalog is unchanged, every transcript record that existed before the
    run is still there and identical, and every record the run created
    belongs to a catalogued video and has [fetch_attempts = 1] and a
    [fetch_status]. *)
Theorem main_never_modifies_existing env api clock db0 :
  let out := main env api clock db0 in
  youtube_videos (conn out.2) = youtube_videos db0 ∧
  (∀ v row, youtube_transcripts db0 !! v = Some row →
     youtube_transcripts (conn out.2) !! v = Some row) ∧
  (∀ v row, youtube_transcripts db0 !! v = None →
     youtube_transcripts (conn out.2) !! v = Some row →
     is_Some (youtube_videos db0 !! v) ∧
     t_fetch_attempts row = Some 1 ∧
     is_Some (t_fetch_status row)).
Proof.
  cbv zeta.
  destruct (fetch_pending_video_ids db0 (TRANSCRIPT_BATCH_LIMIT env))
    as [e|ids] eqn:Hq.
  { unfold main. rewrite Hq. simpl. split; [done|]. split; [done|].
    intros v row Hnone Hsome. congruence. }
  rewrite (main_unfold _ _ _ _ _ Hq).
  destruct (process _ _ _ _ _ _) as [out r] eqn:Hp.
  destruct (fetch_pending_video_ids_facts _ _ _ Hq) as (Hnd & _ & Hpend).
  apply process_store in Hp as (Hcat & Hother & Hnew & _); simpl in *;
    [|done|intros v Hv; by destruct (Hpend v Hv)].
  split; [done|]. split.
  - intros v row Hrow. rewrite Hother; [done|].
    intros Hv. destruct (Hpend v Hv). congruence.
  - intros v row Hnone Hrow.
    destruct (decide (v ∈ ids)) as [Hv|Hv].
    + destruct (Hpend v Hv). destruct (Hnew v row Hv Hrow). done.
    + rewrite (Hother v Hv) in Hrow. congruence.
Qed.

(** X22. A run that completes leaves nothing of its batch pending: every
    identifier the pending query selected has a record with
    [fetch_attempts = 1] afterwards, and no later pending query returns
    any of them. *)
Theorem main_completed_run env api clock db0 ids r :
  fetch_pending_video_ids db0 (TRANSCRIPT_BATCH_LIMIT env) = inr ids →
  main env api clock db0 = (inr (), r) →
  (∀ v, v ∈ ids →
     ∃ row, youtube_transcripts (conn r) !! v = Some row ∧
            t_fetch_attempts row = Some 1) ∧
  (∀ limit' ids', fetch_pending_video_ids (conn r) limit' = inr ids' →
     ∀ v, v ∈ ids → v ∉ ids').
Proof.
  intros Hq Hmain. rewrite (main_unfold _ _ _ _ _ Hq) in Hmain.
  destruct (fetch_pending_video_ids_facts _ _ _ Hq) as (Hnd & _ & Hpend).
  apply process_store in Hmain as (_ & _ & Hnew & Hdone); simpl in *;
    [|done|intros v Hv; by destruct (Hpend v Hv)].
  assert (∀ v, v ∈ ids →
            ∃ row, youtube_transcripts (conn r) !! v = Some row ∧
                   t_fetch_attempts row = Some 1) as Hrec.
  { intros v Hv. destruct (Hdone eq_refl v Hv) as [row Hrow].
    exists row. split; [done|]. by destruct (Hnew v row Hv Hrow). }
  split; [done|].
  intros limit' ids' Hq' v Hv Hv'.
  destruct (Hrec v Hv) as (row & Hrow & _).
  apply (fetch_pending_video_ids_sound _ _ _ _ Hq') in Hv'. congruence.
Qed.

Lemma main_completed_run_witness :
  fetch_pending_video_ids db_e2e (TRANSCRIPT_BATCH_LIMIT env_e2e)
  = inr [py "v1"; py "v2"] ∧
  (main env_e2e api_e2e (λ i, 1000 + Z.of_nat i) db_e2e).1 = inr () ∧
  ∀ v, v ∈ [py "v1"; py "v2"] →
    ∃ row,
      youtube_transcripts
        (conn (main env_e2e api_e2e (λ i, 1000 + Z.of_nat i) db_e2e).2) !! v
      = Some row ∧
      t_fetch_attempts row = Some 1.
Proof.
  split; [reflexivity|]. split; [reflexivity|].
  apply (main_completed_run env_e2e api_e2e (λ i, 1000 + Z.of_nat i) db_e2e
           [py "v1"; py "v2"]
           (main env_e2e api_e2e (λ i, 1000 + Z.of_nat i) db_e2e).2);
    reflexivity.
Defined.

(** X23. The summary of a completed run accounts for every selected
    video exactly once: the six per-status counters add up to the size of
    the batch. *)
Theorem main_stats_total env api clock db0 ids r :
  fetch_pending_video_ids db0 (TRANSCRIPT_BATCH_LIMIT env) = inr ids →
  main env api clock db0 = (inr (), r) →
  stats_total (stats r) = Z.of_nat (length ids).
Proof.
  intros Hq Hmain. rewrite (main_unfold _ _ _ _ _ Hq) in Hmain.
  apply process_stats in Hmain as [_ Heq]. by rewrite (Heq eq_refl).
Qed.

Lemma main_stats_total_witness :
  fetch_pending_video_ids db_e2e (TRANSCRIPT_BATCH_LIMIT env_e2e)
  = inr [py "v1"; py "v2"] ∧
  (main env_e2e api_e2e (λ i, 1000 + Z.of_nat i) db_e2e).1 = inr () ∧
  stats_total
    (stats (main env_e2e api_e2e (λ i, 1000 + Z.of_nat i) db_e2e).2)
  = Z.of_nat (length [py "v1"; py "v2"]).
Proof.
  split; [reflexivity|]. split; [reflexivity|].
  apply (main_stats_total env_e2e api_e2e (λ i, 1000 + Z.of_nat i) db_e2e
           [py "v1"; py "v2"]
           (main env_e2e api_e2e (λ i, 1000 + Z.of_nat i) db_e2e).2);
    reflexivity.
Defined.

(** ** Reading the environment *)

Lemma lstrip_nil s : lstrip s = [] ↔ blank s.
Proof.
  unfold blank. induction s as [|c s IH]; simpl; [done|].
  destruct (isspace c) eqn:Hc.
  - rewrite IH. split; [by constructor|by inversion 1].
  - split; [done|]. inversion 1; congruence.
Qed.

Lemma lstrip_blank_iff s : blank (lstrip s) ↔ blank s.
Proof.
  unfold blank. induction s as [|c s IH]; simpl; [done|].
  destruct (isspace c) eqn:Hc; [|done].
  rewrite IH. split; [by constructor|by inversion 1].
Qed.

Lemma strip_nil s : strip s = [] ↔ blank s.
Proof.
  unfold strip.
  rewrite <- (reverse_involutive []), (inj_iff reverse).
  change (reverse []) with (@nil N).
  rewrite lstrip_nil. unfold blank. rewrite Forall_reverse.
  apply lstrip_blank_iff.
Qed.

Lemma elem_of_lstrip s x : x ∈ lstrip s → x ∈ s.
Proof.
  destruct (lstrip_suffix s) as [pre Hs]. intros Hx.
  rewrite Hs. apply elem_of_app. by right.
Qed.

Lemma elem_of_strip s x : x ∈ strip s → x ∈ s.
Proof.
  unfold strip. rewrite elem_of_reverse. intros Hx%elem_of_lstrip.
  rewrite elem_of_reverse in Hx. by apply elem_of_lstrip.
Qed.

Lemma split_on_no_sep sep s piece :
  piece ∈ split_on sep s → sep ∉ piece.
Proof.
  revert piece. induction s as [|c s IH]; intros piece; simpl.
  - intros ->%list_elem_of_singleton. apply not_elem_of_nil.
  - destruct (N.eqb_spec c sep) as [->|Hne].
    + intros [->|Hin]%elem_of_cons; [apply not_elem_of_nil|by apply IH].
    + destruct (split_on sep s) as [|p ps]; simpl.
      * intros ->%list_elem_of_singleton.
        intros [?|?%elem_of_nil]%elem_of_cons; done.
      * intros [->|Hin]%elem_of_cons.
        -- intros [?|Hin]%elem_of_cons; [done|]. apply (IH p); [by left|done].
        -- apply IH. by right.
Qed.

(** X24. What [get_env] returns is usable as it is: never the empty
    string, with no whitespace at either end, and equal to the stripped
    value of the variable, or of the default when the variable is not
    set. *)
Theorem get_env_result env name default v :
  get_env env name default = inr v →
  v ≠ [] ∧ stripped v ∧
  ∃ raw, environ_get env name default = Some raw ∧ v = strip raw.
Proof.
  unfold get_env. destruct (environ_get env name default) as [raw|]; [|done].
  case_decide as Hb; [done|]. intros [= <-].
  split; [done|]. split; [apply strip_stripped|by exists raw].
Qed.

Lemma get_env_result_witness :
  get_env (environ_languages (py "  de , en ")) (py "TRANSCRIPT_LANGUAGES")
    (Some (py "en")) = inr (py "de , en") ∧
  py "de , en" ≠ [] ∧ stripped (py "de , en") ∧
  ∃ raw,
    environ_get (environ_languages (py "  de , en "))
      (py "TRANSCRIPT_LANGUAGES") (Some (py "en")) = Some raw ∧
    py "de , en" = strip raw.
Proof.
  split; [reflexivity|].
  apply (get_env_result (environ_languages (py "  de , en "))
           (py "TRANSCRIPT_LANGUAGES") (Some (py "en"))).
  reflexivity.
Defined.

(** X25. When [get_env] raises: exactly when the variable is set to a
    blank value (empty or whitespace only), whatever the default, or is
    not set and the default is missing or blank.  A default does not
    rescue a variable that is set but blank. *)
Theorem get_env_raises_iff env name default :
  (∃ e, get_env env name default = inl e) ↔
  match env !! name with
  | Some raw => blank raw
  | None => default = None ∨ ∃ d, default = Some d ∧ blank d
  end.
Proof.
  unfold get_env, environ_get.
  destruct (env !! name) as [raw|]; [|destruct default as [d|]].
  - rewrite <- strip_nil. case_decide as Hd; split.
    + done.
    + by eexists.
    + by intros [e [=]].
    + done.
  - case_decide as Hd; rewrite strip_nil in Hd; split.
    + intros _. right. by exists d.
    + by eexists.
    + by intros [e [=]].
    + intros [[=]|(d' & [= <-] & Hb)]. done.
  - split; [by left|by eexists].
Qed.

(** X26. The languages [main] passes to the provider are well formed:
    when reading TRANSCRIPT_LANGUAGES does not raise, each language in the
    resulting list is a non-empty string without a comma and without
    whitespace at either end. *)
Theorem main_languages_well_formed env langs :
  main_languages env = inr langs →
  Forall (λ l, l ≠ [] ∧ stripped l ∧ 44%N ∉ l) langs.
Proof.
  unfold main_languages. destruct (get_env _ _ _) as [e|v]; [done|].
  intros [= <-]. change (map ?f ?l) with (f <$> l).
  apply Forall_fmap, Forall_forall. intros piece Hin. simpl.
  apply list_elem_of_filter in Hin as [Hne Hin].
  split; [done|]. split; [apply strip_stripped|].
  intros Hc%elem_of_strip. by apply (split_on_no_sep 44%N v piece).
Qed.

Lemma main_languages_well_formed_witness :
  main_languages (environ_languages (py " de, ,en-US,")) 
  = inr [py "de"; py "en-US"] ∧
  Forall (λ l, l ≠ [] ∧ stripped l ∧ 44%N ∉ l) [py "de"; py "en-US"].
Proof.
  split; [reflexivity|].
  apply (main_languages_well_formed (environ_languages (py " de, ,en-US,"))).
  reflexivity.
Defined.

Lemma get_env_raises_iff_witness :
  ∃ e,
    get_env (environ_languages (py "   ")) (py "TRANSCRIPT_LANGUAGES")
      (Some (py "en")) = inl e.
Proof.
  apply (proj2 (get_env_raises_iff (environ_languages (py "   "))
                  (py "TRANSCRIPT_LANGUAGES") (Some (py "en")))).
  vm_compute. repeat constructor.
Defined.
